(** * webtreemap: the squarified treemap layout of [src/treemap.ts]

    A shallow embedding of [TreeMap.selectSpan] and [TreeMap.layout] and the
    properties the specification states about them.

    JavaScript's [number] is kept abstract behind the interface [JSNumber],
    which lists exactly the operations the two functions apply to numbers.
    The functions are written once, over the interface, and read at
    - [IEEE]: binary64 floating point (Rocq's primitive floats), which is
      what a JavaScript engine computes, and
    - [Exact]: exact real arithmetic extended with [Infinity], [-Infinity]
      and [NaN], where no operation rounds, overflows or underflows.

    Properties that only depend on the control flow are proved for every
    [JSNumber], so for both readings. Properties that are identities or
    inequalities between the computed numbers are proved in [Exact]; where
    binary64 departs from them, a run in [IEEE] shows by how much. *)

From Stdlib Require Import List Arith Lia Bool ZArith.
From Stdlib Require String.
From Stdlib Require Import Reals Lra Psatz.
From Stdlib Require Uint63 Floats.PrimFloat.
From Stdlib Require Floats.SpecFloat Floats.FloatOps Floats.FloatAxioms.
Import ListNotations.

Set Implicit Arguments.
Set Warnings "-register-all".

(** ** JavaScript numbers *)

Declare Scope js_scope.
Delimit Scope js_scope with js.

(** The operations of [number] the program uses. [num_truthy] is the
    conversion to boolean an [if] or [&&] applies; the one law is the only
    fact about numbers the control flow relies on: the literal [0] is falsy. *)
Class JSNumber : Type := {
  number : Type;
  num_of_Z : Z -> number;
  num_0_1 : number;
  num_add : number -> number -> number;
  num_sub : number -> number -> number;
  num_mul : number -> number -> number;
  num_div : number -> number -> number;
  num_sqrt : number -> number;
  num_max : number -> number -> number;
  num_round : number -> number;
  num_lt : number -> number -> bool;
  num_truthy : number -> bool;
  num_truthy_0 : num_truthy (num_of_Z 0) = false
}.

Notation "a + b" := (num_add a b) : js_scope.
Notation "a - b" := (num_sub a b) : js_scope.
Notation "a * b" := (num_mul a b) : js_scope.
Notation "a / b" := (num_div a b) : js_scope.
Notation "a <? b" := (num_lt a b) (at level 70, no associativity) : js_scope.
Notation "a >? b" := (num_lt b a)
  (at level 70, no associativity, only parsing) : js_scope.
Notation "# z" := (num_of_Z z) (at level 9, z at level 9, format "# z") : js_scope.

(** Outcome of a call: a value, or the [TypeError] JavaScript throws when a
    property of [undefined] is read, or [OutOfFuel] when the bound given to
    a loop of the model did not suffice (which is shown never to happen).
    The call stack is not represented: the [RangeError] an engine throws
    when the recursion of [layout] on a very deep tree exhausts its stack
    has no counterpart here. *)
Inductive result (A : Type) : Type :=
| Ok (a : A)
| TypeError
| OutOfFuel.
Arguments Ok {A} a.
Arguments TypeError {A}.
Arguments OutOfFuel {A}.

Definition bind {A B : Type} (r : result A) (k : A -> result B) : result B :=
  match r with
  | Ok a => k a
  | TypeError => TypeError
  | OutOfFuel => OutOfFuel
  end.

Notation "'do' x <- r ; k" := (bind r (fun x => k))
  (at level 10, x pattern, r at level 100, k at level 200).

Section TreeMap.

Context {N : JSNumber}.
Local Open Scope js_scope.

(** ** Input data: [interface Data] *)

Inductive Data : Type :=
  mkData (size : number) (children : option (list Data)) (caption : option String.string).

Definition size (d : Data) : number := let 'mkData s _ _ := d in s.
Definition children (d : Data) : option (list Data) := let 'mkData _ c _ := d in c.
Definition caption (d : Data) : option String.string := let 'mkData _ _ c := d in c.

(** A leaf with no [children] property and no caption. *)
Definition leaf (s : number) : Data := mkData s None None.

(** ** [selectSpan] *)

(** The variables of the loop of [selectSpan]. *)
Record SpanState : Type := mkSpanState {
  smin : number;
  smax : number;
  sum : number;
  lastScore : number;
  end_ : nat
}.

(** The state before the loop: lines 100-104. *)
Definition span_init (first : Data) (start : nat) : SpanState :=
  {| smin := size first; smax := size first; sum := #0; lastScore := #0;
     end_ := start |}.

(** [smin], [smax] and [nextSum] once the candidate is taken into account:
    lines 106-112. *)
Definition next_smin (st : SpanState) (c : Data) : number :=
  if size c <? smin st then size c else smin st.
Definition next_smax (st : SpanState) (c : Data) : number :=
  if size c >? smax st then size c else smax st.
Definition nextSum (st : SpanState) (c : Data) : number :=
  sum st + size c.

(** The two ratios and the score of the span with the candidate included:
    lines 132-134. *)
Definition scoreFromMax (space : number) (st : SpanState) (c : Data) : number :=
  next_smax st c * space * space / (nextSum st c * nextSum st c).
Definition scoreFromMin (space : number) (st : SpanState) (c : Data) : number :=
  nextSum st c * nextSum st c / (next_smin st c * space * space).
Definition score (space : number) (st : SpanState) (c : Data) : number :=
  num_max (scoreFromMax space st c) (scoreFromMin space st c).

(** The test of line 135: [lastScore && score > lastScore]. *)
Definition rejects (space : number) (st : SpanState) (c : Data) : bool :=
  num_truthy (lastScore st) && (score space st c >? lastScore st).

(** The state after the candidate has been included: lines 140-141 and the
    [end++] of the loop header. *)
Definition include (space : number) (st : SpanState) (c : Data) : SpanState :=
  {| smin := next_smin st c; smax := next_smax st c; sum := nextSum st c;
     lastScore := score space st c; end_ := S (end_ st) |}.

(** One iteration of the loop body on candidate [c = children[end]]:
    [None] is the [break] (the updates of [smin] and [smax] that precede it
    are local and not returned, so the state is left as it was). *)
Definition span_step (space : number) (st : SpanState) (c : Data) : option SpanState :=
  if rejects space st c then None else Some (include space st c).

(** The loop of lines 105-142, run over the candidates not yet visited,
    [children[end], children[end+1], ...]; it ends when they are exhausted
    or on [break]. *)
Fixpoint span_loop (space : number) (rest : list Data) (st : SpanState) : SpanState :=
  match rest with
  | [] => st
  | c :: rest' =>
      match span_step space st c with
      | None => st
      | Some st' => span_loop space rest' st'
      end
  end.

(** [selectSpan(children, space, start)]. Reading [children[start].size]
    throws when [start] is past the end of the array. *)
Definition selectSpan (children : list Data) (space : number) (start : nat)
  : result (nat * number) :=
  match nth_error children start with
  | None => TypeError
  | Some first =>
      let st := span_loop space (skipn start children) (span_init first start) in
      Ok (end_ st, sum st)
  end.

(** ** [Options] and the rendered tree *)

(** [getPadding()] is [top, right, bottom, left]. [createNode] makes the DOM
    element of a node; an element is represented by the [Box] below, which
    keeps the node and the level [createNode] was given. *)
Record Options : Type := mkOptions {
  getPadding : number * number * number * number;
  getSpacing : number
}.

Definition newOptions : Options :=
  {| getPadding := (#0, #0, #0, #0); getSpacing := #0 |}.

Definition newCaptionOptions : Options :=
  {| getPadding := (#14, #0, #0, #0); getSpacing := #0 |}.

(** The four style properties [layout] writes, each the number [px]
    rounded (the unit suffix is left out). *)
Record Style : Type := mkStyle {
  style_left : number;
  style_width : number;
  style_top : number;
  style_height : number
}.

(** [px(x)]: line 171. *)
Definition px (x : number) : number := num_round x.

(** One iteration of the outer loop of [layout] that got past the cutoff:
    the span [start, end) with its [sum], the offset [y] and thickness
    [heightPx] of the strip, and the elements it appended. *)
Record Strip (B : Type) : Type := mkStrip {
  s_start : nat;
  s_end : nat;
  s_sum : number;
  s_y : number;
  s_heightPx : number;
  s_items : list B
}.

(** The element appended for [children[i]], with the unrounded values of
    the locals [x], [y], [widthPx], [heightPx] at line 185, the style
    written on lines 186-189, and what the recursive call of line 193
    appended to it. *)
Inductive Box : Type := mkBox {
  b_index : nat;
  b_data : Data;
  b_level : nat;
  b_x : number;
  b_y : number;
  b_widthPx : number;
  b_heightPx : number;
  b_style : Style;
  b_inner : list (Strip Box)
}.

(** The child elements of a container, in the order they were appended. *)
Definition appended (strips : list (Strip Box)) : list Box :=
  concat (map (@s_items Box) strips).

(** The areas [widthPx * heightPx] of the elements of a strip, before
    spacing and rounding, added up in the order the elements were appended. *)
Definition strip_area (strip : Strip Box) : number :=
  fold_left num_add (map (fun b => b_widthPx b * b_heightPx b) (s_items strip)) #0.

(** ** [layout] *)

Section LayoutBody.

(** What the two loops of [layout] close over. [recurse] holds, for each
    child, the recursive call [this.layout(dom, children[i], ...)] waiting
    for its level, width and height. *)
Variable options : Options.
Variable children : list Data.
Variable recurse : list (nat -> number -> number -> result (list (Strip Box))).
Variable level : nat.
Variables total x1 x2 scale : number.

(** The inner loop, lines 181-196: [n] iterations from index [i]. *)
Fixpoint layout_items (height heightPx y : number) (n i : nat) (x : number)
  : result (list Box) :=
  match n with
  | O => Ok []
  | S n' =>
      match nth_error children i, nth_error recurse i with
      | Some child, Some layout_child =>
          let size := size child in
          let width := size / height in
          let widthPx := width / scale in
          let style :=
            {| style_left := px x;
               style_width := px (widthPx - getSpacing options);
               style_top := px y;
               style_height := px (heightPx - getSpacing options) |} in
          do inner <- layout_child (S level) (widthPx - #2) (heightPx - #2);
          do rest <- layout_items height heightPx y n' (S i) (x + widthPx);
          Ok (mkBox i child (S level) x y widthPx heightPx style inner :: rest)
      | _, _ => TypeError
      end
  end.

(** The outer loop, lines 174-199. Every iteration moves [start] forward,
    so [length children] iterations always suffice; [fuel] is that bound. *)
Fixpoint layout_strips (fuel : nat) (start : nat) (y : number)
  : result (list (Strip Box)) :=
  if Nat.ltb start (length children) then
    match fuel with
    | O => OutOfFuel
    | S fuel' =>
        let x := x1 in
        let space := scale * (x2 - x1) in
        do (end_, sum) <- selectSpan children space start;
        if sum / total <? num_0_1 then Ok []
        else
          let height := sum / space in
          let heightPx := height / scale in
          do items <- layout_items height heightPx y (end_ - start) start x;
          do strips <- layout_strips fuel' end_ (y + heightPx);
          Ok (mkStrip start end_ sum y heightPx items :: strips)
    end
  else Ok [].

(** The outer loop as a relation: [strips_from start y strips] when the
    loop, being at [start] and [y], appends [strips] before it ends,
    either past the last child or at the cutoff of line 178. *)
Inductive strips_from : nat -> number -> list (Strip Box) -> Prop :=
| strips_done start y :
    length children <= start ->
    strips_from start y []
| strips_cutoff start y end_ sum :
    start < length children ->
    selectSpan children (scale * (x2 - x1)) start = Ok (end_, sum) ->
    (sum / total <? num_0_1) = true ->
    strips_from start y []
| strips_strip start y end_ sum items strips :
    start < length children ->
    selectSpan children (scale * (x2 - x1)) start = Ok (end_, sum) ->
    (sum / total <? num_0_1) = false ->
    layout_items (sum / (scale * (x2 - x1)))
      (sum / (scale * (x2 - x1)) / scale) y (end_ - start) start x1
      = Ok items ->
    strips_from end_ (y + sum / (scale * (x2 - x1)) / scale) strips ->
    strips_from start y
      (mkStrip start end_ sum y (sum / (scale * (x2 - x1)) / scale) items
         :: strips).

End LayoutBody.

(** The content rectangle [(x1, y1, x2, y2)] left by the padding:
    lines 153-160. *)
Definition content (options : Options) (width height : number)
  : number * number * number * number :=
  let x1 := #0 in let y1 := #0 in let x2 := width in let y2 := height in
  let '(padding0, padding1, padding2, padding3) := getPadding options in
  let y1 := y1 + padding0 in
  let x2 := x2 - padding1 in
  let y2 := y2 - padding2 in
  let x1 := x1 + padding3 in
  (x1, y1, x2, y2).

(** [scale] and [space]: lines 164 and 176. *)
Definition scale_of (total x1 y1 x2 y2 : number) : number :=
  num_sqrt (total / ((x2 - x1) * (y2 - y1))).
Definition space_of (total x1 y1 x2 y2 : number) : number :=
  scale_of total x1 y1 x2 y2 * (x2 - x1).

(** [layout(container, data, level, width, height)]: the result is what the
    call appended to [container], strip by strip. The recursion is on the
    tree of [data], to any depth: the limit an engine puts on the depth of
    calls is not modelled. *)
Fixpoint layout (options : Options) (data : Data) (level : nat)
  (width height : number) {struct data} : result (list (Strip Box)) :=
  match data with
  | mkData total None _ => Ok []
  | mkData total (Some children) _ =>
      let '(x1, y1, x2, y2) := content options width height in
      if (x2 - x1) <? #40 then Ok []
      else if (y2 - y1) <? #100 then Ok []
      else
        let scale := scale_of total x1 y1 x2 y2 in
        layout_strips options children (map (layout options) children)
          level total x1 x2 scale (length children) 0 y1
  end.

(** [render(container)] for a container of the given offset size. *)
Definition render (options : Options) (data : Data) (width height : number)
  : result (list (Strip Box)) :=
  layout options data 0 width height.

(** ** The states and strips a call goes through *)

(** [visits children space start st]: in the call
    [selectSpan(children, space, start)] the loop reaches its head with the
    variables as in [st] (the next candidate is [children[end_ st]]). *)
Inductive visits (children : list Data) (space : number) (start : nat)
  : SpanState -> Prop :=
| visits_init first :
    nth_error children start = Some first ->
    visits children space start (span_init first start)
| visits_include st c :
    visits children space start st ->
    nth_error children (end_ st) = Some c ->
    rejects space st c = false ->
    visits children space start (include space st c).

(** [strip_path children total space s t]: the outer loop of [layout],
    being at [start = s], gets to [start = t] through strips that all pass
    the cutoff of line 178. *)
Inductive strip_path (children : list Data) (total space : number)
  : nat -> nat -> Prop :=
| strip_path_here s : strip_path children total space s s
| strip_path_step s e sum t :
    s < length children ->
    selectSpan children space s = Ok (e, sum) ->
    (sum / total <? num_0_1) = false ->
    strip_path children total space e t ->
    strip_path children total space s t.

End TreeMap.

Arguments Data : clear implicits.
Arguments Options : clear implicits.
Arguments Box : clear implicits.
Arguments SpanState : clear implicits.

(** ** The document: [createNode], [render], [getNodeIndex], [getAddress] *)

Section Document.

Context {N : JSNumber}.
Import String.StringSyntax.
Local Open Scope js_scope.
Local Open Scope string_scope.

Definition NODE_CSS_CLASS : String.string := "webtreemap-node".

(** An element of the document, as far as the program reads or writes it:
    its class names, the text it was given, the style properties that were
    set (name and number, the unit suffix left out, in the order they were
    set) and its child elements in document order. *)
Inductive Element : Type := mkElement {
  classList : list String.string;
  innerText : option String.string;
  style : list (String.string * number);
  elementChildren : list Element
}.

(** [document.createElement('div')]. *)
Definition createElement : Element := mkElement [] None [] [].

(** [node.className = c] for a single class name [c]. *)
Definition set_className (c : String.string) (node : Element) : Element :=
  mkElement [c] (innerText node) (style node) (elementChildren node).

(** [node.innerText = text]; the text nodes this makes are not elements. *)
Definition set_innerText (text : String.string) (node : Element) : Element :=
  mkElement (classList node) (Some text) (style node) (elementChildren node).

(** [node.style.name = v + 'px']: the assignment is recorded as made,
    also for a value such as [NaN] or [Infinity], which a browser would
    not keep. *)
Definition set_style (name : String.string) (v : number) (node : Element)
  : Element :=
  mkElement (classList node) (innerText node) (style node ++ [(name, v)])
    (elementChildren node).

(** [node.appendChild(child)] for a [child] that is not yet in the
    document. *)
Definition appendChild (node child : Element) : Element :=
  mkElement (classList node) (innerText node) (style node)
    (elementChildren node ++ [child]).

(** [node.classList.contains(c)]. *)
Definition contains (node : Element) (c : String.string) : bool :=
  existsb (String.eqb c) (classList node).

(** [createNode] of [newOptions()]: lines 43-47. *)
Definition newOptions_createNode (data : Data N) (level : nat) : Element :=
  let dom := createElement in
  let dom := set_className NODE_CSS_CLASS dom in
  dom.

(** [createNode] of [newCaptionOptions()]: lines 61-68. A [caption] that
    is [undefined] is written as the text [undefined]. *)
Definition newCaptionOptions_createNode (data : Data N) (level : nat)
  : Element :=
  let dom := newOptions_createNode data level in
  let cap := createElement in
  let cap := set_className "webtreemap-caption" cap in
  let cap :=
    set_innerText
      (match caption data with Some text => text | None => "undefined" end)
      cap in
  appendChild dom cap.

(** An object of [class TreeMap]: its [data], and its [options] with
    [createNode] kept apart from the two numeric options. *)
Record TreeMap : Type := mkTreeMap {
  this_data : Data N;
  this_options : Options N;
  this_createNode : Data N -> nat -> Element
}.

(** [new TreeMap(data)], with the default [options = newOptions()], and
    [new TreeMap(data, newCaptionOptions())]. *)
Definition newTreeMap (data : Data N) : TreeMap :=
  mkTreeMap data newOptions newOptions_createNode.
Definition newCaptionTreeMap (data : Data N) : TreeMap :=
  mkTreeMap data newCaptionOptions newCaptionOptions_createNode.

(** The element [layout] makes for a child, lines 185-193: what
    [createNode] returned, with the four style properties set and, after
    [createNode]'s own children, the elements the recursive call appended. *)
Fixpoint element_of (createNode : Data N -> nat -> Element) (b : Box N)
  : Element :=
  let dom := createNode (b_data b) (b_level b) in
  let dom := set_style "left" (style_left (b_style b)) dom in
  let dom := set_style "width" (style_width (b_style b)) dom in
  let dom := set_style "top" (style_top (b_style b)) dom in
  let dom := set_style "height" (style_height (b_style b)) dom in
  fold_left appendChild
    (flat_map (fun strip => map (element_of createNode) (s_items strip))
       (b_inner b))
    dom.

(** The root element of [render], lines 203-209, once [layout] has
    appended [strips] to it. *)
Definition root_element (this : TreeMap) (width height : number)
  (strips : list (Strip (Box N))) : Element :=
  let dom := this_createNode this (this_data this) 0 in
  let dom := set_style "width" width dom in
  let dom := set_style "height" height dom in
  fold_left appendChild
    (map (element_of (this_createNode this)) (appended strips)) dom.

(** [render(container)], for a container of offset size [width] by
    [height]: the container after the call. *)
Definition render_into (this : TreeMap) (container : Element)
  (width height : number) : result Element :=
  do strips <- layout (this_options this) (this_data this) 0 width height;
  Ok (appendChild container (root_element this width height strips)).

(** The element reached from [top] by going down through the child
    elements of the given indexes. *)
Fixpoint element_at (top : Element) (path : list nat) : option Element :=
  match path with
  | [] => Some top
  | k :: rest =>
      match nth_error (elementChildren top) k with
      | Some child => element_at child rest
      | None => None
      end
  end.

(** A node of the document under [top] is given by its index among the
    child elements of its parent, followed by the same for each of its
    ancestors below [top], nearest first; [top] itself is []. So
    [parentElement] is the tail and [previousElementSibling] is one index
    less. *)
Definition node_at (top : Element) (node : list nat) : option Element :=
  element_at top (rev node).

(** The loop of [getNodeIndex], lines 78-80, for a node with [k] element
    siblings before it. *)
Fixpoint previous_siblings (siblings : list Element) (k : nat) (index : nat)
  : nat :=
  match k with
  | O => index
  | S k' =>
      match nth_error siblings k' with
      | Some node =>
          previous_siblings siblings k'
            (if contains node NODE_CSS_CLASS then S index else index)
      | None => index
      end
  end.

(** [getNodeIndex(node)]: lines 76-82. *)
Definition getNodeIndex (top : Element) (node : list nat) : nat :=
  match node with
  | [] => 0
  | k :: parent =>
      match node_at top parent with
      | Some p => previous_siblings (elementChildren p) k 0
      | None => 0
      end
  end.

(** The first loop of [getAddress], lines 214-217. *)
Fixpoint ancestor_indexes (top : Element) (node : list nat)
  (indexes : list nat) {struct node} : list nat :=
  match node_at top node with
  | None => indexes
  | Some e =>
      if contains e NODE_CSS_CLASS then
        let indexes := getNodeIndex top node :: indexes in
        match node with
        | [] => indexes
        | _ :: parent => ancestor_indexes top parent indexes
        end
      else indexes
  end.

(** The second loop of [getAddress], lines 222-225. [data] is [None] when
    it is [undefined], which is what [children[i]] gives past the end of
    the array; reading [children] of it, or indexing a [children] that is
    [undefined], throws. *)
Fixpoint address_loop (data : option (Data N)) (indexes : list nat)
  (address : list (option (Data N))) : result (list (option (Data N))) :=
  match indexes with
  | [] => Ok address
  | i :: rest =>
      match data with
      | None => TypeError
      | Some d =>
          match children d with
          | None => TypeError
          | Some cs =>
              let data := nth_error cs i in
              address_loop data rest (address ++ [data])
          end
      end
  end.

(** [getAddress(node)]: lines 212-227. *)
Definition getAddress (this : TreeMap) (top : Element) (node : list nat)
  : result (list (option (Data N))) :=
  let indexes := ancestor_indexes top node [] in
  let indexes := tl indexes in
  let data := this_data this in
  address_loop (Some data) indexes [Some data].

(** The contract of [createNode] stated with [NODE_CSS_CLASS]: the element
    made for a node carries the class, and nothing it already contains
    does. *)
Definition makes_nodes (createNode : Data N -> nat -> Element) : Prop :=
  forall data level,
    contains (createNode data level) NODE_CSS_CLASS = true
    /\ Forall (fun e => contains e NODE_CSS_CLASS = false)
         (elementChildren (createNode data level)).

(** [holds createNode e data level strips]: [e] is the element made for
    [data] at [level], with what [layout] then appended to it. *)
Definition holds (createNode : Data N -> nat -> Element) (e : Element)
  (data : Data N) (level : nat) (strips : list (Strip (Box N))) : Prop :=
  classList e = classList (createNode data level)
  /\ elementChildren e
     = elementChildren (createNode data level)
       ++ map (element_of createNode) (appended strips).

(** [element_chain strips bs]: [bs] are elements one inside the other, the
    first among those of [strips]. *)
Inductive element_chain : list (Strip (Box N)) -> list (Box N) -> Prop :=
| chain_here strips : element_chain strips []
| chain_down strips b bs :
    In b (appended strips) ->
    element_chain (b_inner b) bs ->
    element_chain strips (b :: bs).

(** Where the last element of a chain is in the document, from the
    element of [data]: each element comes after the children [createNode]
    gave its parent, at the place of its index. *)
Fixpoint chain_path (createNode : Data N -> nat -> Element) (data : Data N)
  (level : nat) (bs : list (Box N)) : list nat :=
  match bs with
  | [] => []
  | b :: bs' =>
      (length (elementChildren (createNode data level)) + b_index b)%nat
        :: chain_path createNode (b_data b) (b_level b) bs'
  end.

End Document.

Arguments Element : clear implicits.
Arguments TreeMap : clear implicits.

(** ** IEEE: [number] as binary64 floating point *)

Module IEEE.

Import PrimFloat.
Local Open Scope float_scope.

(** Integer literals; the program's are [0], [2], [40] and [100]. *)
Definition of_Z (z : Z) : float :=
  match z with
  | Z0 => zero
  | Zpos _ => of_uint63 (Uint63.of_Z z)
  | Zneg p => - of_uint63 (Uint63.of_Z (Zpos p))
  end.

(** The literal [0.1]: the double nearest to one tenth. *)
Definition tenth : float := Eval compute in (1 / 10).

(** ToBoolean: [NaN], [+0] and [-0] are falsy. *)
Definition truthy (x : float) : bool := negb (is_nan x || is_zero x).

(** [Math.max] of two arguments: [NaN] if either is, and [+0] above [-0]. *)
Definition Math_max (a b : float) : float :=
  if is_nan a || is_nan b then nan
  else if a <? b then b
  else if b <? a then a
  else if get_sign a then b else a.

Definition two52 : float := 4503599627370496.
Definition half : float := 0.5.

(** [Math.round]: the nearest integer, a tie going towards [+Infinity].
    Below [2^52] adding and subtracting [2^52] rounds the magnitude to the
    nearest integer with ties to even, and the difference to [x] is exact. *)
Definition Math_round (x : float) : float :=
  if is_nan x || is_infinity x then x
  else if two52 <=? abs x then x
  else
    let t := (abs x + two52) - two52 in
    let n := if get_sign x then - t else t in
    if (x - n) =? half then n + one else n.

#[export] Instance ieee : JSNumber := {|
  number := float;
  num_of_Z := of_Z;
  num_0_1 := tenth;
  num_add := add;
  num_sub := sub;
  num_mul := mul;
  num_div := div;
  num_sqrt := sqrt;
  num_max := Math_max;
  num_round := Math_round;
  num_lt := ltb;
  num_truthy := truthy;
  num_truthy_0 := eq_refl
|}.

(** A leaf, leaves of the given weights, and a node with children. *)
Definition fleaf (w : float) : Data ieee := leaf (w : @number ieee).
Definition leaves (ws : list float) : list (Data ieee) := map fleaf ws.
Definition node (s : float) (cs : list (Data ieee)) : Data ieee :=
  mkData (s : @number ieee) (Some cs) None.

(** The node of the specification's truncation example, and a node whose
    only child has one child of its own. *)
Definition truncation_example : Data ieee := node 100 (leaves [85; 14; 1]).
Definition nested_example : Data ieee := node 100 [node 100 [fleaf 100]].

Import String.StringSyntax.
Local Open Scope string_scope.

(** A node with captions, three levels deep, and the [TreeMap] made for
    it with [newCaptionOptions()]. *)
Definition captioned_example : Data ieee :=
  mkData 100
    (Some [mkData 100 (Some [mkData 100 None (Some "c")])
             (Some "b")])
    (Some "a").

Definition captioned_treemap : TreeMap ieee :=
  newCaptionTreeMap captioned_example.

(** A container that already holds an element carrying the class, as
    after an earlier [render]. *)
Definition used_container : Element ieee :=
  appendChild createElement (newOptions_createNode captioned_example 0).

End IEEE.

(** ** Exact: [number] as an extended real *)

Module Exact.

Local Open Scope R_scope.

(** A finite real, [Infinity], [-Infinity] or [NaN]. Operations on finite
    values are exact; the special values follow IEEE 754 as JavaScript
    does. There is one zero, which behaves as [+0]. *)
Inductive xreal : Type :=
| Fin (r : R)
| PInf
| NInf
| NaN.

Definition Rltb (a b : R) : bool := if Rlt_dec a b then true else false.
Definition Reqb (a b : R) : bool := if Req_dec_T a b then true else false.

(** The infinity with the sign of [r], [NaN] for [r = 0]. *)
Definition signed_inf (r : R) : xreal :=
  if Rltb 0 r then PInf else if Rltb r 0 then NInf else NaN.

Definition neg (a : xreal) : xreal :=
  match a with
  | Fin r => Fin (- r)
  | PInf => NInf
  | NInf => PInf
  | NaN => NaN
  end.

Definition add (a b : xreal) : xreal :=
  match a, b with
  | NaN, _ | _, NaN => NaN
  | Fin x, Fin y => Fin (x + y)
  | PInf, NInf | NInf, PInf => NaN
  | PInf, _ | _, PInf => PInf
  | NInf, _ | _, NInf => NInf
  end.

Definition sub (a b : xreal) : xreal :=
  match a, b with
  | Fin x, Fin y => Fin (x - y)
  | _, _ => add a (neg b)
  end.

Definition mul (a b : xreal) : xreal :=
  match a, b with
  | NaN, _ | _, NaN => NaN
  | Fin x, Fin y => Fin (x * y)
  | Fin x, PInf | PInf, Fin x => signed_inf x
  | Fin x, NInf | NInf, Fin x => signed_inf (- x)
  | PInf, PInf | NInf, NInf => PInf
  | PInf, NInf | NInf, PInf => NInf
  end.

Definition div (a b : xreal) : xreal :=
  match a, b with
  | NaN, _ | _, NaN => NaN
  | Fin x, Fin y => if Reqb y 0 then signed_inf x else Fin (x / y)
  | Fin _, (PInf | NInf) => Fin 0
  | PInf, Fin y => if Rltb y 0 then NInf else PInf
  | NInf, Fin y => if Rltb y 0 then PInf else NInf
  | (PInf | NInf), (PInf | NInf) => NaN
  end.

Definition Math_sqrt (a : xreal) : xreal :=
  match a with
  | Fin x => if Rltb x 0 then NaN else Fin (sqrt x)
  | PInf => PInf
  | NInf | NaN => NaN
  end.

(** [a < b]; false as soon as one side is [NaN]. *)
Definition lt (a b : xreal) : bool :=
  match a, b with
  | NaN, _ | _, NaN => false
  | Fin x, Fin y => Rltb x y
  | _, NInf => false
  | NInf, _ => true
  | PInf, _ => false
  | Fin _, PInf => true
  end.

Definition Math_max (a b : xreal) : xreal :=
  match a, b with
  | NaN, _ | _, NaN => NaN
  | _, _ => if lt a b then b else a
  end.

(** [Math.round]: the largest integer not above [x + 1/2]. *)
Definition Math_round (a : xreal) : xreal :=
  match a with
  | Fin x => Fin (IZR (Int_part (x + / 2)))
  | _ => a
  end.

(** ToBoolean: [NaN] and [0] are falsy. *)
Definition truthy (a : xreal) : bool :=
  match a with
  | Fin x => negb (Reqb x 0)
  | PInf | NInf => true
  | NaN => false
  end.

#[export] Instance exact : JSNumber := {|
  number := xreal;
  num_of_Z := fun z => Fin (IZR z);
  num_0_1 := Fin (1 / 10);
  num_add := add;
  num_sub := sub;
  num_mul := mul;
  num_div := div;
  num_sqrt := Math_sqrt;
  num_max := Math_max;
  num_round := Math_round;
  num_lt := lt;
  num_truthy := truthy;
  num_truthy_0 :=
    (ltac:(unfold truthy, Reqb; destruct (Req_dec_T 0 0); [reflexivity | congruence])
     : truthy (Fin (IZR 0)) = false)
|}.

(** A leaf, leaves of the given finite weights, and a node with children. *)
Definition xleaf (w : R) : Data exact := leaf (Fin w : @number exact).
Definition leaves (ws : list R) : list (Data exact) := map xleaf ws.
Definition node (s : R) (cs : list (Data exact)) : Data exact :=
  mkData (Fin s : @number exact) (Some cs) None.

(** The real a finite number stands for, and the weight of a node. *)
Definition value (a : xreal) : R :=
  match a with
  | Fin r => r
  | _ => 0
  end.
Definition weight (c : Data exact) : R := value (size c).

(** [a <= b] between finite numbers, and [a] finite and positive (or not
    negative). *)
Definition le (a b : xreal) : Prop :=
  match a, b with
  | Fin x, Fin y => x <= y
  | _, _ => False
  end.
Definition positive (a : xreal) : Prop := exists r, a = Fin r /\ 0 < r.
Definition nonnegative (a : xreal) : Prop := exists r, a = Fin r /\ 0 <= r.
Definition finite (a : xreal) : Prop := exists r, a = Fin r.

(** The sum of a list of reals. *)
Definition Rsum (l : list R) : R := fold_right Rplus 0 l.

(** The score of line 132 on reals: [m] and [M] are the smallest and the
    largest weight and [ns] the sum of the weights of the span. *)
Definition rscore (sp m M ns : R) : R :=
  Rmax (M * sp * sp / (ns * ns)) (ns * ns / (m * sp * sp)).

End Exact.

(** * Properties of [selectSpan], for every [JSNumber] *)

Section SelectSpanFacts.

Context {N : JSNumber}.
Local Open Scope js_scope.

Implicit Types (st : SpanState N) (c first : Data N) (space : number).
Implicit Types (children rest : list (Data N)).

Lemma skipn_cons_nth A (l : list A) (n : nat) (x : A) :
  nth_error l n = Some x -> skipn n l = x :: skipn (S n) l.
Proof.
  revert n; induction l as [|a l IH]; intros [|n] H; simpl in *; try discriminate.
  - now injection H as ->.
  - now apply IH.
Qed.

Lemma skipn_nil_nth A (l : list A) (n : nat) :
  nth_error l n = None -> skipn n l = [].
Proof.
  intros H. apply skipn_all2. now apply nth_error_None.
Qed.

(** Unfolding the loop at its head. *)
Lemma span_loop_break children space st c :
  nth_error children (end_ st) = Some c ->
  rejects space st c = true ->
  span_loop space (skipn (end_ st) children) st = st.
Proof.
  intros Hc Hr. rewrite (skipn_cons_nth _ _ Hc). simpl.
  unfold span_step. now rewrite Hr.
Qed.

Lemma span_loop_continue children space st c :
  nth_error children (end_ st) = Some c ->
  rejects space st c = false ->
  span_loop space (skipn (end_ st) children) st =
  span_loop space (skipn (end_ (include space st c)) children) (include space st c).
Proof.
  intros Hc Hr. rewrite (skipn_cons_nth _ _ Hc). simpl.
  unfold span_step. now rewrite Hr.
Qed.

Lemma span_loop_exhausted children space st :
  nth_error children (end_ st) = None ->
  span_loop space (skipn (end_ st) children) st = st.
Proof.
  intros Hc. now rewrite (skipn_nil_nth _ _ Hc).
Qed.

(** [end] never moves backwards, and never past the candidates. *)
Lemma span_loop_end_ge space rest st :
  end_ st <= end_ (span_loop space rest st).
Proof.
  revert st; induction rest as [|c rest IH]; intros st; simpl; [lia|].
  unfold span_step. destruct (rejects space st c); [lia|].
  specialize (IH (include space st c)). simpl in IH. lia.
Qed.

Lemma span_loop_end_le space rest st :
  end_ (span_loop space rest st) <= end_ st + length rest.
Proof.
  revert st; induction rest as [|c rest IH]; intros st; simpl; [lia|].
  unfold span_step. destruct (rejects space st c); [lia|].
  specialize (IH (include space st c)). simpl in IH. lia.
Qed.

(** Before anything is included [lastScore] is the literal [0], which is
    falsy: the first candidate passes the test of line 135. *)
Lemma rejects_init space first start c :
  rejects space (span_init first start) c = false.
Proof.
  unfold rejects, span_init; simpl. now rewrite num_truthy_0.
Qed.

Lemma visits_end_ge children space start st :
  visits children space start st -> start <= end_ st.
Proof.
  induction 1; simpl; lia.
Qed.

(** The result of the call is the result of the loop resumed at any state
    it visits. *)
Lemma selectSpan_resume children space start st :
  visits children space start st ->
  selectSpan children space start =
  Ok (end_ (span_loop space (skipn (end_ st) children) st),
      sum (span_loop space (skipn (end_ st) children) st)).
Proof.
  induction 1 as [first Hf | st c Hv IH Hc Hr].
  - unfold selectSpan. now rewrite Hf.
  - rewrite IH. now rewrite (span_loop_continue _ _ _ Hc Hr).
Qed.

Lemma visits_end_le children space start st :
  visits children space start st -> end_ st <= length children.
Proof.
  destruct 1 as [first Hf | st c Hv Hc Hr]; simpl.
  - apply Nat.lt_le_incl, nth_error_Some. congruence.
  - apply nth_error_Some. congruence.
Qed.

Lemma span_loop_resume children space start first st :
  nth_error children start = Some first ->
  visits children space start st ->
  span_loop space (skipn start children) (span_init first start) =
  span_loop space (skipn (end_ st) children) st.
Proof.
  intros Hf. induction 1 as [first' Hf' | st c Hv IH Hc Hr].
  - rewrite Hf in Hf'. now injection Hf' as <-.
  - rewrite IH. now apply span_loop_continue.
Qed.

(** The state the loop ends in is one it visits. *)
Lemma visits_final children space start st :
  visits children space start st ->
  visits children space start (span_loop space (skipn (end_ st) children) st).
Proof.
  intros Hv.
  remember (length children - end_ st)%nat as n eqn:Hn.
  revert st Hv Hn. induction n as [|n IH]; intros st Hv Hn.
  - rewrite span_loop_exhausted; [assumption|].
    apply nth_error_None. lia.
  - destruct (nth_error children (end_ st)) as [c|] eqn:Hc.
    + destruct (rejects space st c) eqn:Hr.
      * now rewrite (span_loop_break _ _ _ Hc Hr).
      * rewrite (span_loop_continue _ _ _ Hc Hr).
        apply IH; [now apply visits_include|]. simpl. lia.
    + now rewrite span_loop_exhausted.
Qed.

(** The first candidate is always included: the call returns what the
    loop reaches from the state with [children[start]] in it. *)
Lemma selectSpan_first_included children space start first :
  nth_error children start = Some first ->
  selectSpan children space start =
  Ok (end_ (span_loop space (skipn (S start) children)
              (include space (span_init first start) first)),
      sum (span_loop space (skipn (S start) children)
             (include space (span_init first start) first))).
Proof.
  intros Hf. rewrite (selectSpan_resume (visits_init _ space _ Hf)).
  now rewrite (span_loop_continue children space (span_init first start) Hf
                 (rejects_init space first start first)).
Qed.

(** The call returns, with [end] beyond [start] and within the list. *)
Lemma selectSpan_nonempty children space start :
  start < length children ->
  exists e s, selectSpan children space start = Ok (e, s)
              /\ start < e /\ e <= length children.
Proof.
  intros Hlt.
  destruct (nth_error children start) as [first|] eqn:Hf;
    [|apply nth_error_None in Hf; lia].
  set (st1 := include space (span_init first start) first).
  pose proof (span_loop_end_ge space (skipn (S start) children) st1) as Hge.
  pose proof (span_loop_end_le space (skipn (S start) children) st1) as Hle.
  rewrite length_skipn in Hle.
  assert (H1 : end_ st1 = S start) by reflexivity.
  eexists _, _. split; [exact (selectSpan_first_included _ space _ Hf)|].
  fold st1. lia.
Qed.

(** C3. [selectSpan] returns, and its span is never empty: for every
    children list, every [space] (positive or not) and every start index
    inside the list, the returned [end] is beyond [start] (and not beyond
    the list), whatever the weights are, because the first candidate is
    never rejected. *)
Theorem selectSpan_end_gt_start children space start :
  start < length children ->
  exists e s, selectSpan children space start = Ok (e, s)
              /\ start < e /\ e <= length children.
Proof.
  intros Hlt.
  (* [children[start]] exists, so reading its size does not throw. *)
  destruct (nth_error children start) as [first|] eqn:Hf;
    [|apply nth_error_None in Hf; lia].
  (* The first iteration includes it: [lastScore] is still the falsy 0. *)
  assert (Hfirst : rejects space (span_init first start) first = false)
    by apply rejects_init.
  pose proof (selectSpan_resume (visits_init _ space _ Hf)) as Hres.
  rewrite (span_loop_continue children space (span_init first start) Hf Hfirst)
    in Hres.
  (* From there [end], now [start + 1], only grows, within the list. *)
  set (st1 := include space (span_init first start) first) in *.
  assert (H1 : end_ st1 = S start) by reflexivity.
  pose proof (span_loop_end_ge space (skipn (end_ st1) children) st1) as Hge.
  pose proof (span_loop_end_le space (skipn (end_ st1) children) st1) as Hle.
  rewrite length_skipn in Hle.
  eexists _, _. split; [exact Hres|]. lia.
Qed.

Lemma selectSpan_bounds children space start e s :
  start < length children ->
  selectSpan children space start = Ok (e, s) ->
  start < e <= length children.
Proof.
  intros Hlt Hspan.
  destruct (selectSpan_nonempty children space Hlt) as (e' & s' & He & Hb).
  rewrite Hspan in He. now injection He as <- <-.
Qed.

(** C4. At the head of the loop with candidate [c = children[end]]: the
    loop stops without the candidate exactly when [lastScore] holds a score
    (it is truthy) and the candidate's score is strictly greater; the call
    then returns this [end] and the [sum] from before the candidate.
    Otherwise the candidate is included: the loop goes on with [end + 1],
    [sum = nextSum] and the candidate's score as [lastScore]. *)
Theorem selectSpan_candidate children space start st c :
  visits children space start st ->
  nth_error children (end_ st) = Some c ->
  let stop := num_truthy (lastScore st) && (score space st c >? lastScore st) in
  (stop = true -> selectSpan children space start = Ok (end_ st, sum st))
  /\ (stop = false ->
      visits children space start
        {| smin := next_smin st c; smax := next_smax st c;
           sum := sum st + size c; lastScore := score space st c;
           end_ := S (end_ st) |})
  /\ (forall e s, selectSpan children space start = Ok (e, s) ->
      (e = end_ st <-> stop = true)).
Proof.
  intros Hv Hc stop.
  assert (Hstop : stop = rejects space st c) by reflexivity.
  pose proof (selectSpan_resume Hv) as Hres.
  split; [|split].
  - intros Hs. rewrite Hstop in Hs.
    now rewrite (span_loop_break _ _ _ Hc Hs) in Hres.
  - intros Hs. rewrite Hstop in Hs.
    exact (visits_include Hv Hc Hs).
  - intros e s He. rewrite Hres in He. injection He as <- <-.
    rewrite Hstop. destruct (rejects space st c) eqn:Hr.
    + rewrite (span_loop_break _ _ _ Hc Hr). tauto.
    + rewrite (span_loop_continue _ _ _ Hc Hr).
      pose proof (span_loop_end_ge space
                    (skipn (end_ (include space st c)) children)
                    (include space st c)) as H.
      assert (H1 : end_ (include space st c) = S (end_ st)) by reflexivity.
      split; [intros; lia|discriminate].
Qed.

End SelectSpanFacts.

(** * Properties of [layout], for every [JSNumber] *)

Section LayoutFacts.

Context {N : JSNumber}.
Local Open Scope js_scope.

Implicit Types (options : Options N) (data child : Data N).
Implicit Types (children : list (Data N)) (b : Box N).
Implicit Types (strips : list (Strip (Box N))) (items : list (Box N)).

(** Induction on a tree of [Data]. *)
Lemma Data_induction (P : Data N -> Prop) :
  (forall s cap, P (mkData s None cap)) ->
  (forall s cs cap, Forall P cs -> P (mkData s (Some cs) cap)) ->
  forall d, P d.
Proof.
  intros Hleaf Hnode. fix IH 1. intros [s [cs|] cap].
  - apply Hnode. induction cs as [|c cs IHcs]; constructor.
    + apply IH.
    + exact IHcs.
  - apply Hleaf.
Qed.

Lemma layout_unfold options total children cap level width height :
  layout options (mkData total (Some children) cap) level width height =
  let '(x1, y1, x2, y2) := content options width height in
  if (x2 - x1) <? #40 then Ok []
  else if (y2 - y1) <? #100 then Ok []
  else
    layout_strips options children (map (layout options) children)
      level total x1 x2 (scale_of total x1 y1 x2 y2) (length children) 0 y1.
Proof. reflexivity. Qed.

Section Loops.

Variable options : Options N.
Variable children : list (Data N).
Variable recurse : list (nat -> number -> number -> result (list (Strip (Box N)))).
Variable level : nat.
Variables total x1 x2 scale : number.

Hypothesis recurse_length : length recurse = length children.
Hypothesis recurse_returns :
  forall i layout_child,
    nth_error recurse i = Some layout_child ->
    forall l w h, exists inner, layout_child l w h = Ok inner.

Local Abbreviation items_of :=
  (layout_items options children recurse level scale).
Local Abbreviation strips_of :=
  (layout_strips options children recurse level total x1 x2 scale).

(** The inner loop returns, with one element per index, in order. *)
Lemma layout_items_returns height heightPx y n i x :
  i + n <= length children ->
  exists items, items_of height heightPx y n i x = Ok items
                /\ map (@b_index N) items = seq i n.
Proof.
  revert i x. induction n as [|n IH]; intros i x Hle; simpl.
  - now exists [].
  - destruct (nth_error children i) as [child|] eqn:Hc;
      [|apply nth_error_None in Hc; lia].
    destruct (nth_error recurse i) as [layout_child|] eqn:Hr;
      [|apply nth_error_None in Hr; lia].
    pose proof recurse_returns as Hret.
    destruct (Hret _ _ Hr (S level) (size child / height / scale - #2)
                (heightPx - #2)) as [inner ->].
    simpl.
    destruct (IH (S i) (x + size child / height / scale)) as (rest & -> & Hidx);
      [lia|].
    simpl. eexists; split; [reflexivity|]. simpl. now rewrite Hidx.
Qed.

Lemma layout_items_index height heightPx y n i x items :
  items_of height heightPx y n i x = Ok items ->
  map (@b_index N) items = seq i n.
Proof.
  revert i x items. induction n as [|n IH]; intros i x items; simpl.
  - now intros [= <-].
  - destruct (nth_error children i) as [child|]; [|discriminate].
    destruct (nth_error recurse i) as [layout_child|]; [|discriminate].
    destruct (layout_child _ _ _); try discriminate. simpl.
    destruct (layout_items _ _ _ _ _ _ _ _ _ _ _) as [rest| |] eqn:Hrest;
      try discriminate.
    simpl. intros [= <-]. simpl. f_equal. eapply IH. exact Hrest.
Qed.

(** One iteration of the inner loop. *)
Lemma layout_items_step height heightPx y n i x items :
  items_of height heightPx y (S n) i x = Ok items ->
  exists child rest b,
    nth_error children i = Some child
    /\ items_of height heightPx y n (S i) (x + size child / height / scale)
       = Ok rest
    /\ items = b :: rest
    /\ b_data b = child /\ b_x b = x
    /\ b_widthPx b = size child / height / scale.
Proof.
  simpl.
  destruct (nth_error children i) as [child|] eqn:Hc; [|discriminate].
  destruct (nth_error recurse i) as [layout_child|]; [|discriminate].
  destruct (layout_child _ _ _) as [inner| |]; try discriminate. simpl.
  destruct (layout_items _ _ _ _ _ _ _ _ _ _ _) as [rest| |] eqn:Hrest;
    try discriminate.
  simpl. intros [= <-]. eexists child, rest, _.
  repeat split; try reflexivity. exact Hrest.
Qed.

Lemma layout_items_data height heightPx y n i x items :
  items_of height heightPx y n i x = Ok items ->
  map (@b_data N) items = firstn n (skipn i children).
Proof.
  revert i x items. induction n as [|n IH]; intros i x items; simpl.
  - now intros [= <-].
  - destruct (nth_error children i) as [child|] eqn:Hc; [|discriminate].
    destruct (nth_error recurse i) as [layout_child|]; [|discriminate].
    destruct (layout_child _ _ _); try discriminate. simpl.
    destruct (layout_items _ _ _ _ _ _ _ _ _ _ _) as [rest| |] eqn:Hrest;
      try discriminate.
    simpl. intros [= <-]. rewrite (skipn_cons_nth _ _ Hc).
    cbn [map firstn b_data]. f_equal. eapply IH. exact Hrest.
Qed.

(** What the inner loop records in each element. *)
Lemma layout_items_inv height heightPx y n i x items b :
  items_of height heightPx y n i x = Ok items ->
  In b items ->
  nth_error children (b_index b) = Some (b_data b)
  /\ b_level b = S level
  /\ b_y b = y
  /\ b_heightPx b = heightPx
  /\ b_widthPx b = size (b_data b) / height / scale
  /\ exists layout_child,
       nth_error recurse (b_index b) = Some layout_child
       /\ layout_child (S level) (b_widthPx b - #2) (b_heightPx b - #2)
          = Ok (b_inner b).
Proof.
  revert i x items. induction n as [|n IH]; intros i x items; simpl.
  - intros [= <-] [].
  - destruct (nth_error children i) as [child|] eqn:Hc; [|discriminate].
    destruct (nth_error recurse i) as [layout_child|] eqn:Hr; [|discriminate].
    destruct (layout_child (S level) (size child / height / scale - #2)
                (heightPx - #2)) as [inner| |] eqn:Hin; try discriminate.
    simpl.
    destruct (layout_items options children recurse level scale height
                heightPx y n (S i) (x + size child / height / scale))
      as [rest| |] eqn:Hrest; try discriminate.
    simpl. intros [= <-] [<- | Hb].
    + simpl. repeat split; try assumption. now exists layout_child.
    + exact (IH _ _ _ Hrest Hb).
Qed.

(** The outer loop never runs out of fuel and never throws. *)
Lemma layout_strips_returns fuel start y :
  length children - start <= fuel ->
  exists strips, strips_of fuel start y = Ok strips.
Proof.
  revert start y. induction fuel as [|fuel IH]; intros start y Hfuel; simpl.
  - destruct (Nat.ltb_spec start (length children)); [lia|]. now exists [].
  - destruct (Nat.ltb_spec start (length children)) as [Hlt|]; [|now exists []].
    destruct (selectSpan_nonempty children (scale * (x2 - x1)) Hlt)
      as (e & sum & -> & Hgt & Hle).
    simpl. destruct (sum / total <? num_0_1); [now exists []|].
    destruct (@layout_items_returns (sum / (scale * (x2 - x1)))
                (sum / (scale * (x2 - x1)) / scale) y (e - start)%nat
                start x1) as (items & -> & _); [lia|].
    simpl.
    destruct (IH e (y + sum / (scale * (x2 - x1)) / scale)) as [strips ->];
      [lia|].
    simpl. eexists; reflexivity.
Qed.

(** The strips the outer loop returns are those of the relation. *)
Lemma layout_strips_sound fuel start y strips :
  strips_of fuel start y = Ok strips ->
  strips_from options children recurse level total x1 x2 scale start y strips.
Proof.
  revert start y strips. induction fuel as [|fuel IH]; intros start y strips; simpl.
  - destruct (Nat.ltb_spec start (length children)); [discriminate|].
    intros [= <-]. now constructor.
  - destruct (Nat.ltb_spec start (length children)) as [Hlt|];
      [|intros [= <-]; now constructor].
    destruct (selectSpan children (scale * (x2 - x1)) start)
      as [[e sum]| |] eqn:Hspan; try discriminate.
    simpl. destruct (sum / total <? num_0_1) eqn:Hcut.
    + intros [= <-]. eapply strips_cutoff; eassumption.
    + destruct (layout_items options children recurse level scale
                  (sum / (scale * (x2 - x1)))
                  (sum / (scale * (x2 - x1)) / scale) y (e - start) start x1)
        as [items| |] eqn:Hitems; try discriminate.
      simpl.
      destruct (layout_strips options children recurse level total x1 x2
                  scale fuel e (y + sum / (scale * (x2 - x1)) / scale))
        as [rest| |] eqn:Hrest; try discriminate.
      simpl. intros [= <-].
      eapply strips_strip; try eassumption. now apply IH.
Qed.

End Loops.

(** Facts read off the relation. *)
Lemma strips_from_inv options children recurse level total x1 x2 scale
      start y strips strip :
  strips_from options children recurse level total x1 x2 scale start y strips ->
  In strip strips ->
  start <= s_start strip
  /\ s_start strip < length children
  /\ selectSpan children (scale * (x2 - x1)) (s_start strip)
     = Ok (s_end strip, s_sum strip)
  /\ (s_sum strip / total <? num_0_1) = false
  /\ s_heightPx strip = s_sum strip / (scale * (x2 - x1)) / scale
  /\ layout_items options children recurse level scale
       (s_sum strip / (scale * (x2 - x1))) (s_heightPx strip) (s_y strip)
       (s_end strip - s_start strip) (s_start strip) x1
     = Ok (s_items strip).
Proof.
  induction 1 as [start y Hle | start y e sum Hlt Hspan Hcut
                 | start y e sum items strips Hlt Hspan Hcut Hitems Hrest IH];
    [intros [] | intros [] | ].
  intros [<- | Hin].
  - simpl. repeat split; try assumption. lia.
  - destruct (selectSpan_nonempty children (scale * (x2 - x1)) Hlt)
      as (e' & sum' & He & Hgt & _).
    rewrite Hspan in He. injection He as <- <-.
    destruct (IH Hin) as (Hs & Hrem). split; [lia | exact Hrem].
Qed.

Lemma in_appended strips b :
  In b (appended strips) <-> exists strip, In strip strips /\ In b (s_items strip).
Proof.
  unfold appended. rewrite in_concat. split.
  - intros (items & Hitems & Hb). apply in_map_iff in Hitems.
    destruct Hitems as (strip & <- & Hs). now exists strip.
  - intros (strip & Hs & Hb). exists (s_items strip). split; [|assumption].
    apply in_map_iff. now exists strip.
Qed.

(** [layout] returns in the model, where the depth of recursion is not
    bounded: it never throws a [TypeError] and its loops are never cut
    short by the bound of the model. *)
Lemma layout_returns options data level width height :
  exists strips, layout options data level width height = Ok strips.
Proof.
  revert level width height.
  induction data as [total cap | total children cap IH] using Data_induction;
    intros level width height.
  - now exists [].
  - rewrite layout_unfold.
    destruct (content options width height) as [[[x1 y1] x2] y2].
    destruct (x2 - x1 <? #40); [now exists []|].
    destruct (y2 - y1 <? #100); [now exists []|].
    apply layout_strips_returns; [apply length_map| |lia].
    intros i layout_child Hnth l w h.
    rewrite nth_error_map in Hnth.
    destruct (nth_error children i) as [child|] eqn:Hc; [|discriminate].
    injection Hnth as <-.
    rewrite Forall_forall in IH. apply IH. eapply nth_error_In; eassumption.
Qed.

(** [layout] never reads a property of [undefined] and its loops end:
    for every options, node, level, width and height no call of it, at
    any depth of the recursion, throws a [TypeError], and no run of its
    outer loop takes more than [children.length] iterations. *)
Theorem layout_throws_no_TypeError options data level width height :
  layout options data level width height <> TypeError
  /\ layout options data level width height <> OutOfFuel.
Proof.
  destruct (layout_returns options data level width height) as [strips ->].
  split; discriminate.
Qed.

(** What a call on a node with children returns: nothing when the content
    rectangle is too small, else the strips of the outer loop. *)
Lemma layout_inv options total children cap level width height
      x1 y1 x2 y2 strips :
  content options width height = (x1, y1, x2, y2) ->
  layout options (mkData total (Some children) cap) level width height
    = Ok strips ->
  strips = [] \/
  ((x2 - x1 <? #40) = false /\ (y2 - y1 <? #100) = false
   /\ strips_from options children (map (layout options) children) level total
        x1 x2 (scale_of total x1 y1 x2 y2) 0 y1 strips).
Proof.
  intros Hcontent. rewrite layout_unfold, Hcontent.
  destruct (x2 - x1 <? #40); [intros [= <-]; now left|].
  destruct (y2 - y1 <? #100); [intros [= <-]; now left|].
  intros H. right. repeat split. eapply layout_strips_sound; eassumption.
Qed.

(** C6. If the content rectangle left by the padding is narrower than 40
    or lower than 100, [layout] returns at once with nothing appended and
    no error, whether or not the node has children. *)
Theorem layout_content_too_small options data level width height x1 y1 x2 y2 :
  content options width height = (x1, y1, x2, y2) ->
  (x2 - x1 <? #40) = true \/ (y2 - y1 <? #100) = true ->
  layout options data level width height = Ok [].
Proof.
  intros Hcontent Hsmall. destruct data as [total [children|] cap];
    [|reflexivity].
  rewrite layout_unfold, Hcontent.
  destruct (x2 - x1 <? #40); [reflexivity|].
  destruct Hsmall as [H | ->]; [discriminate|reflexivity].
Qed.

(** C8 (as amended). Every element [layout] appends is the element of the
    child [children[i]] it was created for, at [level + 1], and what it
    contains is the layout of that child for the element's unrounded width
    and height, each less 2 (not 4), at [level + 1]. *)
Theorem layout_recurses options data level width height strips b :
  layout options data level width height = Ok strips ->
  In b (appended strips) ->
  (exists cs, children data = Some cs
              /\ nth_error cs (b_index b) = Some (b_data b))
  /\ b_level b = S level
  /\ layout options (b_data b) (S level) (b_widthPx b - #2) (b_heightPx b - #2)
     = Ok (b_inner b).
Proof.
  destruct data as [total [cs|] cap]; [|intros [= <-] []].
  intros Hlayout Hb.
  destruct (content options width height) as [[[x1 y1] x2] y2] eqn:Hcontent.
  eapply layout_inv in Hlayout; [|exact Hcontent].
  destruct Hlayout as [-> | (_ & _ & Hstrips)]; [destruct Hb|].
  apply in_appended in Hb. destruct Hb as (strip & Hstrip & Hb).
  eapply strips_from_inv in Hstrip; [|exact Hstrips].
  destruct Hstrip as (_ & _ & _ & _ & _ & Hitems).
  eapply layout_items_inv in Hb; [|exact Hitems].
  destruct Hb as (Hdata & Hlevel & _ & _ & _ & layout_child & Hnth & Hinner).
  rewrite nth_error_map, Hdata in Hnth. injection Hnth as <-.
  split; [now exists cs|]. split; assumption.
Qed.

(** The strips of a node with a single child whose strip passes the
    cutoff: one strip with one element. *)
Lemma strips_from_single options child recurse level total x1 x2 scale
      y strips e sum :
  strips_from options [child] recurse level total x1 x2 scale 0 y strips ->
  selectSpan [child] (scale * (x2 - x1)) 0 = Ok (e, sum) ->
  (sum / total <? num_0_1) = false ->
  exists strip b,
    strips = [strip] /\ s_items strip = [b] /\ s_sum strip = sum.
Proof.
  intros Hstrips Hspan Hcut.
  assert (Hlen : 0 < length [child]) by (simpl; lia).
  pose proof Hspan as Hb. apply selectSpan_bounds in Hb; [|exact Hlen].
  destruct Hb as (Hgt & Hle). simpl in Hle.
  assert (e = 1) by lia. subst e.
  inversion Hstrips as [? ? Hdone | ? ? e' sum' ? Hspan' Hcut'
                       | ? ? e' sum' items rest ? Hspan' Hcut' Hitems Hrest];
    subst.
  - simpl in Hdone. lia.
  - rewrite Hspan in Hspan'. injection Hspan' as <- <-. congruence.
  - rewrite Hspan in Hspan'. injection Hspan' as <- <-.
    apply layout_items_step in Hitems.
    destruct Hitems as (c & rest' & b & _ & Hrest' & -> & _).
    simpl in Hrest'. injection Hrest' as <-.
    inversion Hrest as [? ? _ | ? ? ? ? Hlt | ? ? ? ? ? ? Hlt]; subst;
      try (simpl in Hlt; lia).
    eexists _, b. repeat split.
Qed.

Lemma strip_path_le children total space s t :
  strip_path children total space s t -> s <= t.
Proof.
  induction 1 as [s | s e sum t Hlt Hspan Hcut Hpath IH]; [lia|].
  destruct (selectSpan_nonempty children space Hlt) as (e' & sum' & He & Hgt & _).
  rewrite Hspan in He. injection He as <- <-. lia.
Qed.

(** The elements appended up to a strip that fails the cutoff are those of
    the children before it. *)
Lemma strips_from_cutoff options children recurse level total x1 x2 scale
      s t e sum y strips :
  length recurse = length children ->
  strip_path children total (scale * (x2 - x1)) s t ->
  t < length children ->
  selectSpan children (scale * (x2 - x1)) t = Ok (e, sum) ->
  (sum / total <? num_0_1) = true ->
  strips_from options children recurse level total x1 x2 scale s y strips ->
  map (@b_index N) (appended strips) = seq s (t - s).
Proof.
  intros Hlen Hpath Ht Hspan Hcut. revert y strips.
  induction Hpath as [s | s e' sum' t Hlt Hspan' Hcut' Hpath IH];
    intros y strips Hstrips.
  - rewrite Nat.sub_diag.
    inversion Hstrips as [? ? Hle | | ? ? e2 sum2 ? ? ? Hspan2 Hcut2]; subst;
      [lia | reflexivity |].
    rewrite Hspan in Hspan2. injection Hspan2 as <- <-. congruence.
  - pose proof (strip_path_le Hpath) as Hle.
    destruct (selectSpan_nonempty children (scale * (x2 - x1)) Hlt)
      as (e2 & sum2 & He & Hgt & Hend).
    rewrite Hspan' in He. injection He as <- <-.
    inversion Hstrips as [? ? Hge | ? ? e3 sum3 ? Hspan3 Hcut3
                         | ? ? e3 sum3 items rest ? Hspan3 Hcut3 Hitems Hrest];
      subst; [lia | |].
    + rewrite Hspan' in Hspan3. injection Hspan3 as <- <-. congruence.
    + rewrite Hspan' in Hspan3. injection Hspan3 as <- <-.
      unfold appended. simpl. rewrite map_app.
      fold (appended rest). rewrite (IH Ht Hspan _ _ Hrest).
      pose proof (layout_items_index _ _ _ _ _ _ _ _ _ _ _ Hitems) as Hidx.
      rewrite Hidx. replace (t - s)%nat with ((e' - s) + (t - e'))%nat by lia.
      rewrite seq_app. do 2 f_equal. lia.
Qed.

(** C5. Once the outer loop, having appended the strips that passed the
    cutoff, selects a strip whose [sum / total] is below [0.1], [layout]
    returns: the children up to that strip's [start] have their elements,
    and no child of that strip or after it has one. *)
Theorem layout_cutoff options total children cap level width height
        x1 y1 x2 y2 start e sum :
  content options width height = (x1, y1, x2, y2) ->
  (x2 - x1 <? #40) = false ->
  (y2 - y1 <? #100) = false ->
  strip_path children total (space_of total x1 y1 x2 y2) 0 start ->
  start < length children ->
  selectSpan children (space_of total x1 y1 x2 y2) start = Ok (e, sum) ->
  (sum / total <? num_0_1) = true ->
  exists strips,
    layout options (mkData total (Some children) cap) level width height
      = Ok strips
    /\ map (@b_index N) (appended strips) = seq 0 start.
Proof.
  intros Hcontent Hw Hh Hpath Hstart Hspan Hcut.
  destruct (layout_returns options (mkData total (Some children) cap)
              level width height) as [strips Hlayout].
  exists strips. split; [assumption|].
  rewrite layout_unfold, Hcontent, Hw, Hh in Hlayout.
  apply layout_strips_sound in Hlayout.
  rewrite <- (Nat.sub_0_r start).
  eapply strips_from_cutoff; try eassumption. apply length_map.
Qed.

End LayoutFacts.

(** * The shape of what [layout] appends, for every [JSNumber] *)

Section LayoutShape.

Context {N : JSNumber}.
Local Open Scope js_scope.

Lemma firstn_add_skipn A (l : list A) (a m : nat) :
  firstn (a + m) l = firstn a l ++ firstn m (skipn a l).
Proof.
  revert l. induction a as [|a IH]; intros [|x l]; simpl; try reflexivity.
  - now rewrite firstn_nil.
  - now rewrite IH.
Qed.

(** The elements the outer loop appends from [start] on are those of
    consecutive children, in order. *)
Lemma strips_from_prefix options children recurse level total x1 x2 scale
      start y strips :
  strips_from options children recurse level total x1 x2 scale start y strips ->
  map (@b_index N) (appended strips) = seq start (length (appended strips))
  /\ map (@b_data N) (appended strips)
     = firstn (length (appended strips)) (skipn start children).
Proof.
  induction 1 as [start y Hle | start y e sum Hlt Hspan Hcut
                 | start y e sum items strips Hlt Hspan Hcut Hitems Hrest IH];
    [now split | now split | ].
  destruct IH as (IHi & IHd).
  destruct (selectSpan_bounds _ _ Hlt Hspan) as (Hgt & Hend).
  pose proof (layout_items_index _ _ _ _ _ _ _ _ _ _ _ Hitems) as Hidx.
  pose proof (layout_items_data _ _ _ _ _ _ _ _ _ _ _ Hitems) as Hdat.
  assert (Hn : length items = (e - start)%nat).
  { rewrite <- (length_map (@b_index N)), Hidx. apply length_seq. }
  unfold appended. cbn [map concat s_items]. fold (appended strips).
  rewrite !map_app, length_app, Hn, Hidx, Hdat, IHi, IHd. split.
  - rewrite seq_app. do 2 f_equal. lia.
  - rewrite firstn_add_skipn, skipn_skipn. do 3 f_equal. lia.
Qed.


Lemma layout_prefix options total children cap level width height strips :
  layout options (mkData total (Some children) cap) level width height
    = Ok strips ->
  exists n,
    n <= length children
    /\ map (@b_index N) (appended strips) = seq 0 n
    /\ map (@b_data N) (appended strips) = firstn n children.
Proof.
  intros Hlayout.
  destruct (content options width height) as [[[x1 y1] x2] y2] eqn:Hcontent.
  eapply layout_inv in Hlayout; [|exact Hcontent].
  destruct Hlayout as [-> | (_ & _ & Hstrips)].
  - exists 0. split; [lia|]. now split.
  - apply strips_from_prefix in Hstrips. destruct Hstrips as (Hidx & Hdat).
    exists (length (appended strips)). simpl skipn in Hdat.
    split; [|now split].
    rewrite <- (length_map (@b_data N)), Hdat, length_firstn. lia.
Qed.

(** The elements [layout] appends to a node are the elements of the first
    [n] children, for some [n], one each and in the order of the children;
    the cutoff only ever drops children at the end. *)
Theorem layout_elements_are_a_prefix options total children cap level
        width height strips :
  layout options (mkData total (Some children) cap) level width height
    = Ok strips ->
  exists n,
    n <= length children
    /\ map (@b_index N) (appended strips) = seq 0 n
    /\ map (@b_data N) (appended strips) = firstn n children.
Proof. apply layout_prefix. Qed.

(** The spans of the strips the outer loop appends follow one another. *)
Lemma strips_from_spans options children recurse level total x1 x2 scale
      start y strips :
  strips_from options children recurse level total x1 x2 scale start y strips ->
  (forall strip, hd_error strips = Some strip ->
     s_start strip = start /\ s_y strip = y)
  /\ (forall k strip strip',
        nth_error strips k = Some strip ->
        nth_error strips (S k) = Some strip' ->
        s_start strip' = s_end strip
        /\ s_y strip' = s_y strip + s_heightPx strip).
Proof.
  induction 1 as [start y Hle | start y e sum Hlt Hspan Hcut
                 | start y e sum items strips Hlt Hspan Hcut Hitems Hrest IH];
    [split; [discriminate|intros [|k]; discriminate]
    |split; [discriminate|intros [|k]; discriminate] | ].
  destruct IH as (IHhd & IHnext). split.
  - intros strip [= <-]. now split.
  - intros [|k] strip strip'.
    + intros [= <-] Hnext. apply IHhd. destruct strips; [discriminate|exact Hnext].
    + intros Hk Hnext. exact (IHnext k _ _ Hk Hnext).
Qed.

(** The strips [layout] appends cover consecutive spans of the children:
    the first starts at child 0, each next one starts where the one before
    ended, no span is empty or runs past the last child, and the elements of
    a strip are those of the children of its span. *)
Theorem strips_are_consecutive_spans options total children cap level
        width height strips :
  layout options (mkData total (Some children) cap) level width height
    = Ok strips ->
  (forall strip, hd_error strips = Some strip -> s_start strip = 0)
  /\ (forall k strip strip',
        nth_error strips k = Some strip ->
        nth_error strips (S k) = Some strip' ->
        s_start strip' = s_end strip)
  /\ (forall strip, In strip strips ->
        s_start strip < s_end strip <= length children
        /\ map (@b_index N) (s_items strip)
           = seq (s_start strip) (s_end strip - s_start strip)
        /\ map (@b_data N) (s_items strip)
           = firstn (s_end strip - s_start strip)
               (skipn (s_start strip) children)).
Proof.
  intros Hlayout.
  destruct (content options width height) as [[[x1 y1] x2] y2] eqn:Hcontent.
  eapply layout_inv in Hlayout; [|exact Hcontent].
  destruct Hlayout as [-> | (_ & _ & Hstrips)].
  - split; [discriminate|]. split; [intros [|k]; discriminate|intros ? []].
  - destruct (strips_from_spans Hstrips) as (Hhd & Hnext).
    split; [intros strip Hs; now apply Hhd|].
    split; [intros k strip strip' Hk Hk'; now apply (Hnext k)|].
    intros strip Hin.
    eapply strips_from_inv in Hin; [|exact Hstrips].
    destruct Hin as (_ & Hlt & Hspan & _ & _ & Hitems).
    split; [exact (selectSpan_bounds _ _ Hlt Hspan)|]. split.
    + exact (layout_items_index _ _ _ _ _ _ _ _ _ _ _ Hitems).
    + exact (layout_items_data _ _ _ _ _ _ _ _ _ _ _ Hitems).
Qed.

(** The offsets of the elements of one run of the inner loop. *)
Lemma layout_items_adjoin options children recurse level scale
      height heightPx y n i x items :
  layout_items options children recurse level scale height heightPx y n i x
    = Ok items ->
  (forall b, hd_error items = Some b -> b_x b = x)
  /\ (forall j b b',
        nth_error items j = Some b ->
        nth_error items (S j) = Some b' ->
        b_x b' = b_x b + b_widthPx b).
Proof.
  revert i x items. induction n as [|n IH]; intros i x items Hitems.
  - injection Hitems as <-. split; [discriminate|intros [|j]; discriminate].
  - apply layout_items_step in Hitems.
    destruct Hitems as (child & rest & b0 & _ & Hrest & -> & _ & Hx & Hw).
    destruct (IH _ _ _ Hrest) as (IHhd & IHnext). split.
    + now intros b [= <-].
    + intros [|j] b b'.
      * intros [= <-] Hnext. rewrite Hx, Hw. apply IHhd.
        destruct rest; [discriminate|exact Hnext].
      * intros Hj Hnext. exact (IHnext j _ _ Hj Hnext).
Qed.

(** The strips [layout] appends are stacked from the top of the content
    rectangle, each starting at the offset where the one before ended, and
    the elements of a strip are laid side by side from the left of the
    content rectangle, each starting where the one before ended, all at
    the strip's offset and with the strip's thickness (on the unrounded
    values, before spacing). *)
Theorem strips_and_elements_adjoin options total children cap level
        width height x1 y1 x2 y2 strips :
  content options width height = (x1, y1, x2, y2) ->
  layout options (mkData total (Some children) cap) level width height
    = Ok strips ->
  (forall strip, hd_error strips = Some strip -> s_y strip = y1)
  /\ (forall k strip strip',
        nth_error strips k = Some strip ->
        nth_error strips (S k) = Some strip' ->
        s_y strip' = s_y strip + s_heightPx strip)
  /\ (forall strip, In strip strips ->
        (forall b, hd_error (s_items strip) = Some b -> b_x b = x1)
        /\ (forall j b b',
              nth_error (s_items strip) j = Some b ->
              nth_error (s_items strip) (S j) = Some b' ->
              b_x b' = b_x b + b_widthPx b)
        /\ (forall b, In b (s_items strip) ->
              b_y b = s_y strip /\ b_heightPx b = s_heightPx strip)).
Proof.
  intros Hcontent Hlayout.
  eapply layout_inv in Hlayout; [|exact Hcontent].
  destruct Hlayout as [-> | (_ & _ & Hstrips)].
  - split; [discriminate|]. split; [intros [|k]; discriminate|intros ? []].
  - destruct (strips_from_spans Hstrips) as (Hhd & Hnext).
    split; [intros strip Hs; now apply Hhd|].
    split; [intros k strip strip' Hk Hk'; now apply (Hnext k)|].
    intros strip Hin.
    eapply strips_from_inv in Hin; [|exact Hstrips].
    destruct Hin as (_ & _ & _ & _ & _ & Hitems).
    destruct (layout_items_adjoin _ _ _ _ _ _ _ _ _ _ _ Hitems) as (Hx & Hadj).
    split; [exact Hx|]. split; [exact Hadj|].
    intros b Hb. eapply layout_items_inv in Hb; [|exact Hitems].
    destruct Hb as (_ & _ & Hy & Hh & _). now split.
Qed.

(** The loop of [selectSpan] does not read [end] except to step it. *)
Lemma span_loop_shift space rest lo hi sm ls e k :
  span_loop space rest (mkSpanState lo hi sm ls (k + e)%nat)
  = let st := span_loop space rest (mkSpanState lo hi sm ls e) in
    mkSpanState (smin st) (smax st) (sum st)
      (lastScore st) (k + end_ st)%nat.
Proof.
  revert lo hi sm ls e.
  induction rest as [|c rest IH]; intros lo hi sm ls e;
    [reflexivity|].
  cbn [span_loop]. unfold span_step.
  change (rejects space (mkSpanState lo hi sm ls (k + e)%nat) c)
    with (rejects space (mkSpanState lo hi sm ls e) c).
  destruct (rejects space (mkSpanState lo hi sm ls e) c);
    [reflexivity|].
  unfold include. cbn [end_]. rewrite <- Nat.add_succ_r. apply IH.
Qed.

(** [selectSpan] reads only the children from [start] on: with more
    children put in front and [start] moved by as many, the span is the
    same one, moved by as many, with the same sum; and the one call throws
    exactly when the other does. *)
Theorem selectSpan_ignores_earlier_children (pre cs : list (Data N))
        space start :
  selectSpan (pre ++ cs) space (length pre + start)%nat
  = match selectSpan cs space start with
    | Ok (e, s) => Ok ((length pre + e)%nat, s)
    | TypeError => TypeError
    | OutOfFuel => OutOfFuel
    end.
Proof.
  unfold selectSpan.
  rewrite nth_error_app2 by lia.
  replace (length pre + start - length pre)%nat with start by lia.
  destruct (nth_error cs start) as [first|]; [|reflexivity].
  rewrite skipn_app, skipn_all2 by lia.
  replace (length pre + start - length pre)%nat with start by lia.
  cbn [app]. unfold span_init. rewrite span_loop_shift. reflexivity.
Qed.

(** A node whose [children] is missing or is the empty array gets no
    element, whatever the size of the rectangle. *)
Theorem layout_without_children options data level width height :
  children data = None \/ children data = Some [] ->
  layout options data level width height = Ok [].
Proof.
  destruct data as [total [cs|] cap]; [|reflexivity].
  intros [H | H]; [discriminate|]. injection H as ->.
  rewrite layout_unfold.
  destruct (content options width height) as [[[x1 y1] x2] y2].
  destruct (x2 - x1 <? #40); [reflexivity|].
  destruct (y2 - y1 <? #100); reflexivity.
Qed.

End LayoutShape.

(** * Properties of [render], [getNodeIndex] and [getAddress] *)

Section DocumentFacts.

Context {N : JSNumber}.

Implicit Types (options : Options N) (data : Data N) (b : Box N).
Implicit Types (strips : list (Strip (Box N))) (bs : list (Box N)).
Implicit Types (e top dom : Element N) (createNode : Data N -> nat -> Element N).

Lemma In_nth_index (l : list (Box N)) (start : nat) b :
  map (@b_index N) l = seq start (length l) ->
  In b l ->
  nth_error l (b_index b - start) = Some b /\ start <= b_index b.
Proof.
  intros Hidx Hb. apply In_nth_error in Hb. destruct Hb as [j Hj].
  assert (Hlt : j < length l) by (apply nth_error_Some; congruence).
  pose proof (map_nth_error (@b_index N) _ _ Hj) as Hmap.
  rewrite Hidx in Hmap.
  rewrite nth_error_nth' with (d := 0) in Hmap by (rewrite length_seq; lia).
  rewrite seq_nth in Hmap by lia. injection Hmap as Hmap.
  replace (b_index b - start) with j by lia. split; [assumption|lia].
Qed.

(** What [layout] records in an element it appends, and where the element
    is among those appended. *)
Lemma layout_element options data level width height strips b :
  layout options data level width height = Ok strips ->
  In b (appended strips) ->
  nth_error (appended strips) (b_index b) = Some b
  /\ (exists cs, children data = Some cs
                 /\ nth_error cs (b_index b) = Some (b_data b))
  /\ b_level b = S level
  /\ layout options (b_data b) (S level) (b_widthPx b - #2)%js (b_heightPx b - #2)%js
     = Ok (b_inner b).
Proof.
  destruct data as [total [cs|] cap]; [|intros [= <-] []].
  intros Hlayout Hb.
  destruct (content options width height) as [[[x1 y1] x2] y2] eqn:Hcontent.
  eapply layout_inv in Hlayout; [|exact Hcontent].
  destruct Hlayout as [-> | (_ & _ & Hstrips)]; [destruct Hb|].
  split.
  - destruct (strips_from_prefix Hstrips) as (Hidx & _).
    destruct (@In_nth_index _ _ _ Hidx Hb) as (Hnth & _).
    now rewrite Nat.sub_0_r in Hnth.
  - apply in_appended in Hb. destruct Hb as (strip & Hstrip & Hb).
    eapply strips_from_inv in Hstrip; [|exact Hstrips].
    destruct Hstrip as (_ & _ & _ & _ & _ & Hitems).
    eapply layout_items_inv in Hb; [|exact Hitems].
    destruct Hb as (Hdata & Hlevel & _ & _ & _ & layout_child & Hnth & Hinner).
    rewrite nth_error_map, Hdata in Hnth. injection Hnth as <-.
    split; [now exists cs|]. split; assumption.
Qed.

(** ** Elements *)

Lemma fold_appendChild (l : list (Element N)) dom :
  classList (fold_left appendChild l dom) = classList dom
  /\ elementChildren (fold_left appendChild l dom) = elementChildren dom ++ l.
Proof.
  revert dom. induction l as [|c l IH]; intros dom; simpl.
  - now rewrite app_nil_r.
  - destruct (IH (appendChild dom c)) as (-> & ->). simpl.
    now rewrite <- app_assoc.
Qed.

Lemma element_of_holds createNode b :
  holds createNode (element_of createNode b) (b_data b) (b_level b) (b_inner b).
Proof.
  destruct b as [i d l x y w h st inner]. unfold holds. cbn [element_of].
  match goal with |- context [fold_left appendChild ?l ?dom] =>
    destruct (fold_appendChild l dom) as (-> & ->) end.
  cbn [b_data b_level b_inner set_style classList elementChildren].
  split; [reflexivity|]. f_equal.
  unfold appended. rewrite flat_map_concat_map, concat_map, map_map.
  reflexivity.
Qed.

Lemma root_element_holds (this : TreeMap N) width height strips :
  holds (this_createNode this) (root_element this width height strips)
    (this_data this) 0 strips.
Proof.
  unfold holds, root_element.
  match goal with |- context [fold_left appendChild ?l ?dom] =>
    destruct (fold_appendChild l dom) as (-> & ->) end.
  now split.
Qed.

Lemma element_at_app top p1 p2 :
  element_at top (p1 ++ p2)
  = match element_at top p1 with
    | Some e => element_at e p2
    | None => None
    end.
Proof.
  revert top. induction p1 as [|k p1 IH]; intros top; simpl; [reflexivity|].
  destruct (nth_error (elementChildren top) k); [apply IH|reflexivity].
Qed.

Lemma firstn_S_nth A (l : list A) (k : nat) (x : A) :
  nth_error l k = Some x -> firstn (S k) l = firstn k l ++ [x].
Proof.
  revert k. induction l as [|a l IH]; intros [|k] Hk; try discriminate.
  - injection Hk as ->. reflexivity.
  - cbn [firstn app]. f_equal. now apply IH.
Qed.

(** The loop of [getNodeIndex] counts the siblings before the node that
    carry the class. *)
Lemma previous_siblings_count (siblings : list (Element N)) k index :
  k <= length siblings ->
  previous_siblings siblings k index
  = index + length (filter (fun e => contains e NODE_CSS_CLASS)
                      (firstn k siblings)).
Proof.
  revert index. induction k as [|k IH]; intros index Hk.
  - simpl. lia.
  - cbn [previous_siblings].
    destruct (nth_error siblings k) as [node|] eqn:Hnode;
      [|apply nth_error_None in Hnode; lia].
    rewrite IH by lia. rewrite (firstn_S_nth _ _ Hnode).
    rewrite filter_app, length_app. simpl.
    destruct (contains node NODE_CSS_CLASS); simpl; lia.
Qed.

(** Among the children of an element that holds what [layout] appended,
    the one at [createNode]'s own children's count plus [j] is the
    [j]-th appended, and [getNodeIndex] gives it [j]. *)
Lemma holds_child createNode e data level strips j b :
  makes_nodes createNode ->
  holds createNode e data level strips ->
  nth_error (appended strips) j = Some b ->
  let k := length (elementChildren (createNode data level)) + j in
  nth_error (elementChildren e) k = Some (element_of createNode b)
  /\ previous_siblings (elementChildren e) k 0 = j.
Proof.
  intros Hmakes (_ & Hchildren) Hj k. subst k.
  assert (Hlt : j < length (appended strips))
    by (apply nth_error_Some; congruence).
  destruct (Hmakes data level) as (_ & Hown).
  set (own := elementChildren (createNode data level)) in *.
  rewrite Hchildren. split.
  - rewrite nth_error_app2 by lia.
    replace (length own + j - length own) with j by lia.
    now apply map_nth_error.
  - rewrite previous_siblings_count by (rewrite length_app, length_map; lia).
    rewrite firstn_app, firstn_all2 by lia.
    replace (length own + j - length own) with j by lia.
    rewrite filter_app, length_app. simpl.
    assert (Hnone : filter (fun e => contains e NODE_CSS_CLASS) own = []).
    { clear -Hown. induction Hown as [|c own Hc Hown IH]; simpl;
        [reflexivity|]. now rewrite Hc. }
    rewrite Hnone. simpl.
    assert (Hall : forall l : list (Box N),
              filter (fun e => contains e NODE_CSS_CLASS)
                (map (element_of createNode) l)
              = map (element_of createNode) l).
    { induction l as [|c l IH]; simpl; [reflexivity|].
      destruct (element_of_holds createNode c) as (Hclass & _).
      unfold contains at 1. rewrite Hclass.
      destruct (Hmakes (b_data c) (b_level c)) as (Hnode & _).
      unfold contains in Hnode. rewrite Hnode. now rewrite IH. }
    rewrite firstn_map, Hall, length_map, length_firstn. lia.
Qed.

Lemma contains_classList e e' (c : String.string) :
  classList e = classList e' -> contains e c = contains e' c.
Proof. unfold contains. now intros ->. Qed.

Lemma last_cons A (l : list A) (a d : A) : last (a :: l) d = last l a.
Proof.
  revert a d. induction l as [|x l IH]; intros a d; [reflexivity|].
  change (last (a :: x :: l) d) with (last (x :: l) d).
  now rewrite (IH x d), (IH x a).
Qed.

(** One step of the first loop of [getAddress], on a node that carries
    the class. *)
Lemma ancestor_indexes_step top k parent e p indexes :
  node_at top (k :: parent) = Some e ->
  contains e NODE_CSS_CLASS = true ->
  node_at top parent = Some p ->
  ancestor_indexes top (k :: parent) indexes
  = ancestor_indexes top parent
      (previous_siblings (elementChildren p) k 0 :: indexes).
Proof.
  intros He Hnode Hp. cbn [ancestor_indexes]. rewrite He, Hnode.
  unfold getNodeIndex. now rewrite Hp.
Qed.

(** Going down a chain of elements from an element [e] that holds what
    [layout] appended: where the chain ends, the indexes the first loop of
    [getAddress] collects on the way back up to [e], and what its second
    loop makes of them. *)
Lemma chain_walk createNode options top :
  makes_nodes createNode ->
  forall bs data level width height strips e pre,
    layout options data level width height = Ok strips ->
    holds createNode e data level strips ->
    element_at top pre = Some e ->
    element_chain strips bs ->
    element_at top (pre ++ chain_path createNode data level bs)
    = Some (last (map (element_of createNode) bs) e)
    /\ (forall indexes,
          ancestor_indexes top
            (rev (pre ++ chain_path createNode data level bs)) indexes
          = ancestor_indexes top (rev pre) (map (@b_index N) bs ++ indexes))
    /\ (forall address,
          address_loop (Some data) (map (@b_index N) bs) address
          = Ok (address ++ map (fun b => Some (b_data b)) bs)).
Proof.
  intros Hmakes.
  induction bs as [|b bs IH];
    intros data level width height strips e pre Hlayout Hholds Hpre Hchain.
  - cbn [chain_path map last app]. rewrite !app_nil_r.
    split; [assumption|]. split; [reflexivity|intros address].
    simpl. now rewrite app_nil_r.
  - inversion Hchain as [|? ? ? Hb Hrest]; subst.
    destruct (@layout_element _ _ _ _ _ _ _ Hlayout Hb)
      as (Hnth & (cs & Hcs & Hchild) & Hlevel & Hinner).
    destruct (@holds_child createNode e data level strips (b_index b) b
                Hmakes Hholds Hnth) as (Hk & Hindex).
    cbn [chain_path].
    set (k := length (elementChildren (createNode data level)) + b_index b)
      in *.
    assert (Hpre' : element_at top (pre ++ [k])
                    = Some (element_of createNode b)).
    { rewrite element_at_app, Hpre. cbn [element_at]. now rewrite Hk. }
    rewrite <- Hlevel in Hinner.
    destruct (IH _ _ _ _ _ _ (pre ++ [k]) Hinner
                (element_of_holds createNode b) Hpre' Hrest)
      as (IHat & IHup & IHdown).
    replace (pre ++ k :: chain_path createNode (b_data b) (b_level b) bs)
      with ((pre ++ [k]) ++ chain_path createNode (b_data b) (b_level b) bs)
      by (now rewrite <- app_assoc).
    split; [|split].
    + rewrite IHat. cbn [map]. now rewrite last_cons.
    + intros indexes. rewrite IHup, rev_app_distr. cbn [rev app].
      rewrite (@ancestor_indexes_step top k (rev pre)
                 (element_of createNode b) e).
      * now rewrite Hindex.
      * unfold node_at. cbn [rev]. now rewrite rev_involutive.
      * destruct (element_of_holds createNode b) as (Hclass & _).
        rewrite (contains_classList _ _ _ Hclass).
        apply (Hmakes (b_data b) (b_level b)).
      * unfold node_at. now rewrite rev_involutive.
    + intros address. cbn [map address_loop]. rewrite Hcs, Hchild.
      rewrite IHdown, <- app_assoc. reflexivity.
Qed.

(** [getAddress] of an element of the rendered document gives the nodes
    from the root to the node the element was made for: for a document
    made by [render] in a container that does not carry
    [NODE_CSS_CLASS], with a [createNode] that puts the class on the
    elements it makes and on none of what it puts inside them, and for
    every chain [bs] of elements one inside the other below the root
    element, the element of the last of [bs] is in the document and its
    address is the root node followed by the nodes of [bs]; whatever else
    the container already held. *)
Theorem getAddress_of_rendered_element (this : TreeMap N) container
        width height strips top bs :
  makes_nodes (this_createNode this) ->
  contains container NODE_CSS_CLASS = false ->
  layout (this_options this) (this_data this) 0 width height = Ok strips ->
  render_into this container width height = Ok top ->
  element_chain strips bs ->
  let path :=
    length (elementChildren container)
      :: chain_path (this_createNode this) (this_data this) 0 bs in
  element_at top path
  = Some (last (map (element_of (this_createNode this)) bs)
            (root_element this width height strips))
  /\ getAddress this top (rev path)
     = Ok (Some (this_data this) :: map (fun b => Some (b_data b)) bs).
Proof.
  intros Hmakes Hcontainer Hlayout Hrender Hchain path.
  unfold render_into in Hrender. rewrite Hlayout in Hrender.
  cbn [bind] in Hrender. injection Hrender as <-.
  set (root := root_element this width height strips) in *.
  set (top := appendChild container root) in *.
  set (k := length (elementChildren container)) in *.
  assert (Hroot : element_at top [k] = Some root).
  { cbn [element_at top appendChild elementChildren].
    rewrite nth_error_app2 by (unfold k; lia).
    unfold k. now rewrite Nat.sub_diag. }
  destruct (@chain_walk (this_createNode this) (this_options this) top
              Hmakes bs _ _ _ _ _ root [k] Hlayout
              (root_element_holds this width height strips) Hroot Hchain)
    as (Hat & Hup & Hdown).
  split; [exact Hat|].
  unfold getAddress. change (rev path)
    with (rev ([k] ++ chain_path (this_createNode this) (this_data this) 0 bs)).
  rewrite Hup. cbn [rev app ancestor_indexes].
  replace (node_at top [k]) with (Some root) by (symmetry; exact Hroot).
  destruct (root_element_holds this width height strips) as (Hclass & _).
  rewrite (contains_classList _ _ _ Hclass).
  destruct (Hmakes (this_data this) 0) as (-> & _).
  cbn [node_at rev element_at].
  replace (contains top NODE_CSS_CLASS) with false
    by (symmetry; exact Hcontainer).
  cbn [tl]. rewrite app_nil_r, Hdown. reflexivity.
Qed.

(** [getAddress] of an element that does not carry [NODE_CSS_CLASS] (the
    container, a caption, anything that is not a treemap node), or of no
    element at all, is the address of the root: the first loop does not
    start, [shift] leaves the empty array empty, and nothing is looked up
    in the data. *)
Theorem getAddress_of_other_element (this : TreeMap N) top node :
  (forall e, node_at top node = Some e -> contains e NODE_CSS_CLASS = false) ->
  getAddress this top node = Ok [Some (this_data this)].
Proof.
  intros Hother. unfold getAddress.
  assert (Hnone : ancestor_indexes top node [] = []).
  { destruct node as [|k parent]; cbn [ancestor_indexes];
      (destruct (node_at top _) as [e|] eqn:He;
       [rewrite (Hother e eq_refl)|]; reflexivity). }
  rewrite Hnone. reflexivity.
Qed.

(** Every level of recursion of [layout] passes [level + 1] to
    [createNode]: along a chain of elements one inside the other, the
    levels count up from [level + 1]. *)
Theorem levels_count_the_depth options :
  forall bs data level width height strips,
    layout options data level width height = Ok strips ->
    element_chain strips bs ->
    map (@b_level N) bs = seq (S level) (length bs).
Proof.
  induction bs as [|b bs IH]; intros data level width height strips
    Hlayout Hchain; [reflexivity|].
  inversion Hchain as [|? ? ? Hb Hrest]; subst.
  destruct (@layout_element _ _ _ _ _ _ _ Hlayout Hb)
    as (_ & _ & Hlevel & Hinner).
  cbn [map length seq]. rewrite Hlevel. f_equal.
  exact (IH _ _ _ _ _ Hinner Hrest).
Qed.

(** [getNodeIndex] of a node is the number of element siblings before it
    that carry [NODE_CSS_CLASS]: siblings without the class (captions, say)
    are passed over. *)
Theorem getNodeIndex_counts_node_siblings top k parent p :
  node_at top parent = Some p ->
  k <= length (elementChildren p) ->
  getNodeIndex top (k :: parent)
  = length (filter (fun e => contains e NODE_CSS_CLASS)
              (firstn k (elementChildren p))).
Proof.
  intros Hp Hk. unfold getNodeIndex. rewrite Hp.
  now rewrite previous_siblings_count.
Qed.

Lemma newOptions_makes_nodes : makes_nodes (@newOptions_createNode N).
Proof. intros data level. split; [reflexivity|constructor]. Qed.

Lemma newCaptionOptions_makes_nodes :
  makes_nodes (@newCaptionOptions_createNode N).
Proof.
  intros data level. split; [reflexivity|]. repeat constructor.
Qed.

(** The [createNode] of [newOptions()] and that of [newCaptionOptions()]
    both keep to the contract stated with [NODE_CSS_CLASS]: the element
    they return carries the class, and the caption put inside it does
    not. *)
Theorem shipped_createNode_make_nodes :
  makes_nodes (@newOptions_createNode N)
  /\ makes_nodes (@newCaptionOptions_createNode N).
Proof.
  split; [exact newOptions_makes_nodes|exact newCaptionOptions_makes_nodes].
Qed.

End DocumentFacts.

(** * Properties in exact arithmetic *)

Module Exact_facts.

Import Exact.
Local Open Scope R_scope.

Lemma Rltb_true (a b : R) : a < b -> Rltb a b = true.
Proof. intros H. unfold Rltb. destruct (Rlt_dec a b); [reflexivity|contradiction]. Qed.

Lemma Rltb_false (a b : R) : b <= a -> Rltb a b = false.
Proof. intros H. unfold Rltb. destruct (Rlt_dec a b); [lra|reflexivity]. Qed.

Lemma Reqb_true (a b : R) : a = b -> Reqb a b = true.
Proof. intros H. unfold Reqb. destruct (Req_dec_T a b); [reflexivity|contradiction]. Qed.

Lemma Reqb_false (a b : R) : a <> b -> Reqb a b = false.
Proof. intros H. unfold Reqb. destruct (Req_dec_T a b); [contradiction|reflexivity]. Qed.

Lemma Rltb_false_inv (a b : R) : Rltb a b = false -> b <= a.
Proof. unfold Rltb. destruct (Rlt_dec a b); [discriminate|lra]. Qed.

Lemma Rltb_true_inv (a b : R) : Rltb a b = true -> a < b.
Proof. unfold Rltb. destruct (Rlt_dec a b); [trivial|discriminate]. Qed.

(** Reads the operations of the interface as those of [exact], and
    computes sums, differences and products of finite numbers. *)
Ltac exact_ops :=
  cbn [num_add num_sub num_mul num_div num_sqrt num_max num_lt num_truthy
       num_of_Z num_0_1 number exact add sub mul] in *.

(** ** Arithmetic on finite numbers *)

Lemma div_Fin (x y : R) : y <> 0 -> div (Fin x) (Fin y) = Fin (x / y).
Proof. intros H. unfold div. now rewrite Reqb_false. Qed.

Lemma div_Fin_0 (x : R) : 0 < x -> div (Fin x) (Fin 0) = PInf.
Proof.
  intros H. unfold div, signed_inf. rewrite Reqb_true by reflexivity.
  now rewrite Rltb_true.
Qed.

Lemma sqrt_Fin (x : R) : 0 <= x -> Math_sqrt (Fin x) = Fin (sqrt x).
Proof. intros H. unfold Math_sqrt. now rewrite Rltb_false. Qed.

Lemma max_Fin (x y : R) : Math_max (Fin x) (Fin y) = Fin (Rmax y x).
Proof.
  unfold Math_max, lt, Rltb, Rmax.
  destruct (Rlt_dec x y), (Rle_dec y x); simpl; f_equal; lra.
Qed.

Lemma truthy_Fin (x : R) : x <> 0 -> truthy (Fin x) = true.
Proof. intros H. unfold truthy. now rewrite Reqb_false. Qed.

Lemma le_refl_Fin (x : R) : le (Fin x) (Fin x).
Proof. simpl. lra. Qed.

Lemma le_trans (a b c : xreal) : le a b -> le b c -> le a c.
Proof. destruct a, b, c; simpl; try tauto. lra. Qed.

Lemma rscore_pos (sp m M ns : R) :
  0 < sp -> 0 < m -> 0 < M -> 0 < ns -> 0 < rscore sp m M ns.
Proof.
  intros Hsp Hm HM Hns. unfold rscore.
  apply Rlt_le_trans with (M * sp * sp / (ns * ns)); [|apply Rbasic_fun.Rmax_l].
  apply Rdiv_lt_0_compat; repeat apply Rmult_lt_0_compat; assumption.
Qed.

(** ** [selectSpan] on positive weights *)

(** What one iteration computes from finite positive values. *)
Lemma step_values (space : xreal) (st : SpanState exact) (c : Data exact)
      (sp m M s w : R) :
  space = Fin sp -> smin st = Fin m -> smax st = Fin M -> sum st = Fin s ->
  size c = Fin w ->
  0 < sp -> 0 < m -> 0 < M -> 0 <= s -> 0 < w ->
  next_smin st c = Fin (Rmin w m)
  /\ next_smax st c = Fin (Rmax w M)
  /\ nextSum st c = Fin (s + w)
  /\ score space st c = Fin (rscore sp (Rmin w m) (Rmax w M) (s + w)).
Proof.
  intros -> Hm HM Hs Hw Hsp Hmp HMp Hsp' Hwp.
  assert (Hmin : next_smin st c = Fin (Rmin w m)).
  { unfold next_smin. rewrite Hm, Hw. exact_ops. unfold lt, Rltb, Rmin.
    destruct (Rlt_dec w m), (Rle_dec w m); simpl; f_equal; lra. }
  assert (Hmax : next_smax st c = Fin (Rmax w M)).
  { unfold next_smax. rewrite HM, Hw. exact_ops. unfold lt, Rltb, Rmax.
    destruct (Rlt_dec M w), (Rle_dec w M); simpl; f_equal; lra. }
  assert (Hsum : nextSum st c = Fin (s + w)).
  { unfold nextSum. now rewrite Hs, Hw. }
  repeat split; try assumption.
  unfold score, scoreFromMax, scoreFromMin. rewrite Hmin, Hmax, Hsum.
  assert (0 < Rmin w m) by (apply Rmin_glb_lt; assumption).
  assert (0 < Rmax w M)
    by (apply Rlt_le_trans with w; [assumption|apply Rbasic_fun.Rmax_l]).
  exact_ops.
  rewrite !div_Fin
    by (apply Rgt_not_eq; repeat apply Rmult_lt_0_compat; lra).
  rewrite max_Fin.
  unfold rscore. now rewrite Rmax_comm.
Qed.

(** The values of the loop variables while every weight met so far is
    positive: all finite and positive, [sum] and [lastScore] from the first
    inclusion on. *)
Lemma visits_values children space start k sp :
  space = Fin sp -> 0 < sp -> (start < k)%nat ->
  (forall i c, (start <= i < k)%nat -> nth_error children i = Some c ->
               positive (size c)) ->
  forall st, visits children space start st -> (end_ st <= k)%nat ->
  exists m M s q,
    smin st = Fin m /\ smax st = Fin M /\ sum st = Fin s /\ lastScore st = Fin q
    /\ 0 < m /\ 0 < M
    /\ ((end_ st = start /\ s = 0 /\ q = 0)
        \/ ((start < end_ st)%nat /\ 0 < s /\ 0 < q)).
Proof.
  intros Hspace Hsp Hk Hpos st Hv.
  induction Hv as [first Hf | st c Hv IH Hc Hr]; intros Hend.
  - destruct (Hpos start first) as (w & Hw & Hwp); [lia|assumption|].
    exists w, w, 0, 0. simpl. rewrite Hw. repeat split; try assumption.
    left. repeat split.
  - simpl in Hend.
    destruct IH as (m & M & s & q & Hm & HM & Hs & Hq & Hmp & HMp & Hcase);
      [lia|].
    destruct (Hpos (end_ st) c) as (w & Hw & Hwp);
      [pose proof (visits_end_ge Hv); lia|assumption|].
    assert (Hs0 : 0 <= s) by (destruct Hcase as [(_ & -> & _)|(_ & H & _)]; lra).
    destruct (step_values st c Hspace Hm HM Hs Hw Hsp Hmp HMp Hs0 Hwp)
      as (Hmin & Hmax & Hsum & Hscore).
    exists (Rmin w m), (Rmax w M), (s + w),
      (rscore sp (Rmin w m) (Rmax w M) (s + w)).
    assert (0 < Rmin w m) by (apply Rmin_glb_lt; assumption).
    assert (0 < Rmax w M)
      by (apply Rlt_le_trans with w; [assumption|apply Rbasic_fun.Rmax_l]).
    simpl. repeat split; try assumption.
    right. pose proof (visits_end_ge Hv).
    repeat split; [lia|lra|apply rscore_pos; lra].
Qed.

(** An included candidate does not raise the score (positive weights). *)
Lemma include_score_le children space start k sp st c :
  space = Fin sp -> 0 < sp -> (start < k)%nat ->
  (forall i c, (start <= i < k)%nat -> nth_error children i = Some c ->
               positive (size c)) ->
  visits children space start st -> (start < end_ st < k)%nat ->
  nth_error children (end_ st) = Some c ->
  rejects space st c = false ->
  le (score space st c) (lastScore st).
Proof.
  intros Hspace Hsp Hk Hpos Hv Hend Hc Hr.
  destruct (visits_values Hspace Hsp Hk Hpos Hv)
    as (m & M & s & q & Hm & HM & Hs & Hq & Hmp & HMp & Hcase); [lia|].
  destruct Hcase as [(He & _)|(_ & Hsp' & Hqp)]; [lia|].
  destruct (Hpos (end_ st) c) as (w & Hw & Hwp); [lia|assumption|].
  assert (Hs0 : 0 <= s) by lra.
  destruct (step_values st c Hspace Hm HM Hs Hw Hsp Hmp HMp Hs0 Hwp)
    as (_ & _ & _ & Hscore).
  unfold rejects in Hr. rewrite Hscore, Hq in *. exact_ops.
  rewrite truthy_Fin in Hr by lra. simpl in Hr.
  apply Rltb_false_inv in Hr. simpl. exact Hr.
Qed.

(** From a state on, the loop only lowers [lastScore] (positive weights). *)
Lemma span_loop_score_le children space start sp st :
  space = Fin sp -> 0 < sp ->
  Forall (fun c => positive (size c)) children ->
  visits children space start st -> (start < end_ st)%nat ->
  le (lastScore (span_loop space (skipn (end_ st) children) st)) (lastScore st).
Proof.
  intros Hspace Hsp Hall.
  assert (Hpos : forall i c, (start <= i < S (length children))%nat ->
                   nth_error children i = Some c -> positive (size c)).
  { intros i c _ Hc. rewrite Forall_forall in Hall. apply Hall.
    eapply nth_error_In; eassumption. }
  assert (Hfin : forall st', visits children space start st' ->
                             exists q, lastScore st' = Fin q).
  { intros st' Hv.
    pose proof (visits_end_ge Hv). pose proof (visits_end_le Hv).
    destruct (@visits_values children space start (S (length children)) sp
                Hspace Hsp ltac:(lia) Hpos st' Hv ltac:(lia))
      as (m & M & s & q & _ & _ & _ & Hq & _).
    now exists q. }
  remember (length children - end_ st)%nat as n eqn:Hn.
  revert st Hn. induction n as [|n IH]; intros st Hn Hv Hend.
  - destruct (Hfin st Hv) as [q Hq].
    rewrite span_loop_exhausted by (apply nth_error_None; lia).
    rewrite Hq. apply le_refl_Fin.
  - destruct (nth_error children (end_ st)) as [c|] eqn:Hc;
      [|apply nth_error_None in Hc; lia].
    assert (Hlt : (end_ st < length children)%nat)
      by (apply nth_error_Some; congruence).
    destruct (Hfin st Hv) as [q Hq].
    destruct (rejects (N:=exact) space st c) eqn:Hr.
    + rewrite (span_loop_break (N:=exact) _ _ _ Hc Hr). rewrite Hq. apply le_refl_Fin.
    + rewrite (span_loop_continue (N:=exact) _ _ _ Hc Hr).
      apply le_trans with (lastScore (include (N:=exact) space st c)).
      * apply IH; [simpl; lia | now apply visits_include | simpl; lia].
      * simpl. eapply include_score_le with (k:=S (length children));
          try eassumption; lia.
Qed.

(** In exact arithmetic, in a call on strictly positive weights with a
    strictly positive [space], the recorded score never goes up: the score of every candidate included after the first is at
    most the score recorded before it, and the score the call ends with,
    that of the last included item, is the least of the recorded scores. *)
Theorem recorded_score_never_increases children space start first :
  Forall (fun c => positive (size c)) children ->
  positive space ->
  nth_error children start = Some first ->
  let final := span_loop space (skipn start children) (span_init first start) in
  selectSpan children space start = Ok (end_ final, sum final)
  /\ visits children space start final
  /\ (start < end_ final)%nat
  /\ (forall st c,
        visits children space start st -> (start < end_ st)%nat ->
        nth_error children (end_ st) = Some c ->
        rejects space st c = false ->
        le (score space st c) (lastScore st))
  /\ (forall st,
        visits children space start st -> (start < end_ st)%nat ->
        le (lastScore final) (lastScore st)).
Proof.
  intros Hall (sp & Hspace & Hsp) Hf final.
  pose proof (visits_init _ space _ Hf) as Hinit.
  assert (Hfinal : visits children space start final).
  { apply (visits_final Hinit). }
  assert (Hpos : forall i c, (start <= i < S (length children))%nat ->
                   nth_error children i = Some c -> positive (size c)).
  { intros i c _ Hc. rewrite Forall_forall in Hall. apply Hall.
    eapply nth_error_In; eassumption. }
  assert (Hstart : (start < length children)%nat)
    by (apply nth_error_Some; congruence).
  split; [|split; [assumption|split; [|split]]].
  - unfold selectSpan. now rewrite Hf.
  - destruct (selectSpan_nonempty children space Hstart)
      as (e & s & He & Hgt & _).
    unfold selectSpan in He. rewrite Hf in He. injection He as <- _.
    exact Hgt.
  - intros st c Hv Hend Hc Hr.
    eapply include_score_le with (k:=S (length children)); try eassumption.
    + lia.
    + split; [assumption|]. apply Nat.lt_lt_succ_r, nth_error_Some. congruence.
  - intros st Hv Hend. unfold final.
    rewrite (span_loop_resume Hf Hv).
    eapply span_loop_score_le; eassumption.
Qed.

(** In exact arithmetic, with a strictly positive [space], if the
    weights from [start] up to some later index [k] are strictly positive
    and the weight at [k] is 0, then at candidate [k] the ratio [nextSum^2 / (smin * space^2)]
    is [Infinity] and the candidate is rejected, so the returned span ends
    at [k] at the latest. *)
Theorem zero_weight_after_start_ends_span children space start k zero_child :
  positive space ->
  (start < k)%nat ->
  (forall i c, (start <= i < k)%nat -> nth_error children i = Some c ->
               positive (size c)) ->
  nth_error children k = Some zero_child ->
  size zero_child = Fin 0 ->
  (forall st, visits children space start st -> end_ st = k ->
     scoreFromMin space st zero_child = PInf
     /\ rejects space st zero_child = true)
  /\ exists e s, selectSpan children space start = Ok (e, s)
                 /\ (start < e <= k)%nat.
Proof.
  intros (sp & Hspace & Hsp) Hk Hpos Hzero Hsize.
  assert (Hat : forall st, visits children space start st -> end_ st = k ->
            scoreFromMin space st zero_child = PInf
            /\ rejects space st zero_child = true).
  { intros st Hv Hend.
    destruct (visits_values Hspace Hsp Hk Hpos Hv)
      as (m & M & s & q & Hm & HM & Hs & Hq & Hmp & HMp & Hcase); [lia|].
    destruct Hcase as [(He & _)|(_ & Hsp' & Hqp)]; [lia|].
    assert (Hmin : scoreFromMin space st zero_child = PInf).
    { unfold scoreFromMin, nextSum, next_smin.
      rewrite Hspace, Hm, Hs, Hsize. exact_ops.
      unfold lt at 1. rewrite Rltb_true by assumption. exact_ops.
      replace (0 * sp * sp) with 0 by ring. apply div_Fin_0. nra. }
    split; [assumption|].
    unfold rejects, score. rewrite Hmin, Hq.
    unfold scoreFromMax, nextSum, next_smax. rewrite Hspace, HM, Hs, Hsize.
    exact_ops. unfold lt at 2. rewrite Rltb_false by lra. exact_ops.
    rewrite div_Fin by nra. rewrite truthy_Fin by lra. reflexivity. }
  split; [assumption|].
  assert (Hbound : forall st, visits children space start st -> (end_ st <= k)%nat).
  { induction 1 as [first Hf | st c Hv IH Hc Hr]; simpl; [lia|].
    destruct (Nat.eq_dec (end_ st) k) as [Heq|]; [|lia].
    rewrite Heq, Hzero in Hc. injection Hc as <-.
    destruct (Hat st Hv Heq) as [_ Hrej]. congruence. }
  assert (Hstart : (start < length children)%nat).
  { apply Nat.lt_trans with k; [assumption|]. apply nth_error_Some. congruence. }
  destruct (nth_error children start) as [first|] eqn:Hf;
    [|apply nth_error_None in Hf; lia].
  pose proof (visits_final (visits_init _ space _ Hf)) as Hfinal.
  destruct (selectSpan_nonempty children space Hstart)
    as (e & s & He & Hgt & _).
  exists e, s. split; [assumption|]. split; [assumption|].
  unfold selectSpan in He. rewrite Hf in He. injection He as <- _.
  apply (Hbound _ Hfinal).
Qed.

(** ** When [lastScore] is falsy *)

(** A score computed from values that are not negative is never 0: it is
    [NaN] or truthy. *)
Lemma score_not_zero (sp m M ns : R) (q : xreal) :
  0 < sp -> 0 <= m -> 0 <= M -> 0 <= ns ->
  q = Math_max (div (Fin (M * sp * sp)) (Fin (ns * ns)))
               (div (Fin (ns * ns)) (Fin (m * sp * sp))) ->
  q = NaN \/ truthy q = true.
Proof.
  intros Hsp Hm HM Hns Hq.
  assert (Hsq : 0 < sp * sp) by nra.
  destruct (Req_dec_T ns 0) as [-> | Hns0].
  - replace (0 * 0) with 0 in Hq by ring.
    destruct (Req_dec_T M 0) as [-> | HM0].
    + replace (0 * sp * sp) with 0 in Hq by ring.
      unfold div at 1 in Hq. rewrite Reqb_true in Hq by reflexivity.
      unfold signed_inf in Hq. rewrite !Rltb_false in Hq by lra.
      left. exact Hq.
    + assert (0 < M * sp * sp) by nra.
      rewrite div_Fin_0 in Hq by assumption.
      destruct (Req_dec_T (m * sp * sp) 0) as [Hz | Hnz].
      * rewrite Hz in Hq. unfold div in Hq.
        rewrite Reqb_true in Hq by reflexivity.
        unfold signed_inf in Hq. rewrite !Rltb_false in Hq by lra.
        left. exact Hq.
      * rewrite div_Fin in Hq by assumption. right. now rewrite Hq.
  - assert (Hns2 : 0 < ns * ns) by nra.
    rewrite (div_Fin (M * sp * sp)) in Hq by lra.
    destruct (Req_dec_T m 0) as [-> | Hm0].
    + replace (0 * sp * sp) with 0 in Hq by ring.
      rewrite div_Fin_0 in Hq by assumption. right. now rewrite Hq.
    + assert (0 < m * sp * sp) by nra.
      rewrite div_Fin, max_Fin in Hq by lra. right. rewrite Hq.
      apply truthy_Fin. apply Rgt_not_eq.
      apply Rlt_le_trans with (ns * ns / (m * sp * sp));
        [apply Rdiv_lt_0_compat; assumption | apply Rbasic_fun.Rmax_l].
Qed.

(** On weights that are not negative, once an item has been included
    [lastScore] is [NaN] or truthy, never 0. *)
Lemma visits_score_not_zero children space start st :
  Forall (fun c => nonnegative (size c)) children ->
  positive space ->
  visits children space start st ->
  (exists m M s, smin st = Fin m /\ smax st = Fin M /\ sum st = Fin s
                 /\ 0 <= m /\ 0 <= M /\ 0 <= s)
  /\ ((start < end_ st)%nat ->
      lastScore st = NaN \/ truthy (lastScore st) = true).
Proof.
  intros Hnn (sp & -> & Hsp) Hv. rewrite Forall_forall in Hnn.
  induction Hv as [first Hf | st c Hv IH Hc Hr].
  - destruct (Hnn first (nth_error_In _ _ Hf)) as (w & Hw & Hwp).
    split; [|simpl; lia].
    exists w, w, 0. simpl. rewrite Hw. repeat split; lra.
  - destruct IH as ((m & M & s & Hm & HM & Hs & Hmp & HMp & Hsp') & _).
    destruct (Hnn c (nth_error_In _ _ Hc)) as (w & Hw & Hwp).
    assert (Hmin : exists m', next_smin st c = Fin m' /\ 0 <= m').
    { unfold next_smin. rewrite Hm, Hw. exact_ops.
      destruct (lt (Fin w) (Fin m)); eauto. }
    assert (Hmax : exists M', next_smax st c = Fin M' /\ 0 <= M').
    { unfold next_smax. rewrite HM, Hw. exact_ops.
      destruct (lt (Fin M) (Fin w)); eauto. }
    destruct Hmin as (m' & Hm' & Hm'p). destruct Hmax as (M' & HM' & HM'p).
    assert (Hsum : nextSum st c = Fin (s + w)).
    { unfold nextSum. now rewrite Hs, Hw. }
    split.
    + exists m', M', (s + w). cbn [smin smax sum include].
      repeat split; try assumption. lra.
    + intros _. cbn [lastScore include].
      unfold score, scoreFromMax, scoreFromMin.
      rewrite Hm', HM', Hsum. exact_ops.
      eapply score_not_zero with (sp:=sp) (m:=m') (M:=M') (ns:=s + w);
        try reflexivity; lra.
Qed.

(** On such weights the test of line 135 is the same as: an item has
    been included already and the candidate's score is greater than the
    recorded one. *)
Lemma rejects_after_first_item children space start st c :
  Forall (fun c => nonnegative (size c)) children ->
  positive space ->
  visits children space start st ->
  rejects space st c
  = Nat.ltb start (end_ st) && lt (lastScore st) (score space st c).
Proof.
  intros Hnn Hspace Hv.
  destruct (visits_score_not_zero Hnn Hspace Hv) as (_ & Hscore).
  unfold rejects. exact_ops.
  destruct (Nat.ltb_spec start (end_ st)) as [Hlt | Hge].
  - destruct (Hscore Hlt) as [-> | ->]; reflexivity.
  - assert (Hinit : lastScore st = Fin 0).
    { destruct Hv as [first Hf | st c' Hv Hc Hr]; [reflexivity|].
      pose proof (visits_end_ge Hv). simpl in Hge. lia. }
    rewrite Hinit. unfold truthy. now rewrite Reqb_true.
Qed.

(** ** The sum [selectSpan] returns *)

Lemma finite_weight (c : Data exact) : finite (size c) -> size c = Fin (weight c).
Proof. intros [r Hr]. unfold weight. now rewrite Hr. Qed.

Lemma span_loop_sum space rest st s :
  Forall (fun c => finite (size c)) rest ->
  sum st = Fin s ->
  exists n, (n <= length rest)%nat
    /\ end_ (span_loop space rest st) = (end_ st + n)%nat
    /\ sum (span_loop space rest st) = Fin (s + Rsum (map weight (firstn n rest))).
Proof.
  intros Hfin. revert st s.
  induction Hfin as [|c rest Hc Hrest IH]; intros st s Hs; simpl.
  - exists 0%nat. simpl. rewrite Hs. repeat split; try lia. f_equal. lra.
  - unfold span_step. destruct (rejects space st c).
    + exists 0%nat. simpl. rewrite Hs. repeat split; try lia. f_equal. lra.
    + destruct (IH (include space st c) (s + weight c)) as (n & Hn & Hend & Hsum).
      { simpl. unfold nextSum. now rewrite Hs, (finite_weight c Hc). }
      exists (S n). simpl in *. rewrite Hend, Hsum.
      repeat split; try lia. f_equal. lra.
Qed.

Lemma Forall_skipn A (P : A -> Prop) (l : list A) (n : nat) :
  Forall P l -> Forall P (skipn n l).
Proof.
  intros H. rewrite Forall_forall in *. intros x Hx. apply H.
  rewrite <- (firstn_skipn n l). apply in_or_app. now right.
Qed.

Lemma Forall_firstn A (P : A -> Prop) (l : list A) (n : nat) :
  Forall P l -> Forall P (firstn n l).
Proof.
  intros H. rewrite Forall_forall in *. intros x Hx. apply H.
  rewrite <- (firstn_skipn n l). apply in_or_app. now left.
Qed.

(** On finite weights the returned [sum] is the sum of the weights of the
    children of the span. *)
Lemma selectSpan_sum children space start e sm :
  Forall (fun c => finite (size c)) children ->
  selectSpan children space start = Ok (e, sm) ->
  sm = Fin (Rsum (map weight (firstn (e - start) (skipn start children)))).
Proof.
  intros Hfin. unfold selectSpan.
  destruct (nth_error children start) as [first|]; [|discriminate].
  destruct (@span_loop_sum space (skipn start children)
              (span_init first start) 0
              (Forall_skipn start Hfin) eq_refl) as (n & _ & Hend & Hsum).
  intros [= <- <-]. rewrite Hsum, Hend. simpl end_.
  replace (start + n - start)%nat with n by lia. f_equal. lra.
Qed.

(** The returned [sum] is the total weight of the returned span. *)
Theorem selectSpan_returns_span_weight children space start e sm :
  Forall (fun c => finite (size c)) children ->
  selectSpan children space start = Ok (e, sm) ->
  sm = Fin (Rsum (map weight (firstn (e - start) (skipn start children)))).
Proof. apply selectSpan_sum. Qed.

Lemma Rsum_nonneg (l : list R) : Forall (fun r => 0 <= r) l -> 0 <= Rsum l.
Proof. induction 1; simpl; lra. Qed.

Lemma Rsum_app (l1 l2 : list R) : Rsum (l1 ++ l2) = Rsum l1 + Rsum l2.
Proof. induction l1 as [|a l1 IH]; simpl; [lra|rewrite IH; lra]. Qed.

Lemma Rsum_scale (k : R) (l : list R) :
  Rsum (map (fun r => r * k) l) = Rsum l * k.
Proof. induction l as [|a l IH]; simpl; [lra|rewrite IH; lra]. Qed.

Lemma weights_nonneg (cs : list (Data exact)) :
  Forall (fun c => nonnegative (size c)) cs ->
  Forall (fun r => 0 <= r) (map weight cs).
Proof.
  induction 1 as [|c cs (r & Hr & Hpos) Hcs IH]; simpl; constructor;
    [|assumption].
  unfold weight. now rewrite Hr.
Qed.

Lemma nonnegative_finite (cs : list (Data exact)) :
  Forall (fun c => nonnegative (size c)) cs ->
  Forall (fun c => finite (size c)) cs.
Proof.
  apply Forall_impl. intros c (r & Hr & _). now exists r.
Qed.

(** ** [layout] on finite numbers *)

(** The inner loop: width, height and offset of each element. *)
Lemma items_exact options children recurse level sc hgt hpx y n i x items b :
  sc <> 0 -> hgt <> 0 ->
  Forall (fun c => finite (size c)) children ->
  layout_items options children recurse level (Fin sc) (Fin hgt) (Fin hpx)
    y n i x = Ok items ->
  In b items ->
  b_widthPx b = Fin (weight (b_data b) / hgt / sc)
  /\ b_heightPx b = Fin hpx
  /\ b_y b = y.
Proof.
  intros Hsc Hhgt Hfin Hitems Hb.
  eapply layout_items_inv in Hb; [|exact Hitems].
  destruct Hb as (Hdata & _ & Hy & Hh & Hw & _).
  repeat split; try assumption.
  rewrite Hw. rewrite Forall_forall in Hfin.
  rewrite (finite_weight _ (Hfin _ (nth_error_In _ _ Hdata))).
  exact_ops. now rewrite !div_Fin.
Qed.

(** The inner loop: where each element starts and ends along the strip,
    for weights that are not negative. *)
Lemma items_exact_x options children recurse level sc hgt hpx y n :
  0 < sc -> 0 < hgt ->
  Forall (fun c => nonnegative (size c)) children ->
  forall i xx items b,
  layout_items options children recurse level (Fin sc) (Fin hgt) hpx y
    n i (Fin xx) = Ok items ->
  In b items ->
  exists bx, b_x b = Fin bx /\ xx <= bx
    /\ bx + weight (b_data b) / hgt / sc
       <= xx + Rsum (map weight (firstn n (skipn i children))) / hgt / sc.
Proof.
  intros Hsc Hhgt Hnn. induction n as [|n IH]; intros i xx items b.
  - intros [= <-] [].
  - intros Hitems. apply layout_items_step in Hitems.
    destruct Hitems as (child & rest & b0 & Hc & Hrest & -> & Hdata & Hx & _).
    assert (Hchild : nonnegative (size child)).
    { rewrite Forall_forall in Hnn. apply Hnn. eapply nth_error_In; eassumption. }
    destruct Hchild as (w & Hw & Hwp).
    assert (Hwc : weight child = w) by (unfold weight; now rewrite Hw).
    rewrite (skipn_cons_nth _ _ Hc). cbn [firstn map Rsum fold_right].
    fold (Rsum (map weight (firstn n (skipn (S i) children)))).
    assert (Htail : 0 <= Rsum (map weight (firstn n (skipn (S i) children)))).
    { apply Rsum_nonneg, weights_nonneg, Forall_firstn, Forall_skipn, Hnn. }
    assert (Hk : 0 < / hgt / sc).
    { apply Rdiv_lt_0_compat; [apply Rinv_0_lt_compat|]; assumption. }
    assert (Hdiv : forall r, r / hgt / sc = r * (/ hgt / sc))
      by (intros r; unfold Rdiv; ring).
    rewrite Hwc.
    intros [<- | Hb].
    + exists xx. rewrite Hdata, Hwc. split; [assumption|]. split; [lra|].
      rewrite !Hdiv. nra.
    + rewrite Hw in Hrest. exact_ops. rewrite !div_Fin in Hrest by lra.
      exact_ops.
      destruct (IH _ _ _ _ Hrest Hb) as (bx & Hbx & Hle & Hend).
      exists bx. split; [assumption|]. rewrite !Hdiv in *. split; nra.
Qed.

Section ContentRectangle.

(** A call [layout(_, data, level, W, H)] with finite padding on a node of
    positive size [total]. *)
Variable options : Options exact.
Variables W H p0 p1 p2 p3 total : R.
Hypothesis padding_finite :
  getPadding options = (Fin p0, Fin p1, Fin p2, Fin p3).
Hypothesis total_positive : 0 < total.

Let X1 := 0 + p3.
Let Y1 := 0 + p0.
Let X2 := W - p1.
Let Y2 := H - p2.

Lemma content_exact :
  content options (Fin W) (Fin H) = (Fin X1, Fin Y1, Fin X2, Fin Y2).
Proof. unfold content. now rewrite padding_finite. Qed.

Lemma scale_exact :
  40 <= X2 - X1 -> 100 <= Y2 - Y1 ->
  exists sc,
    scale_of (Fin total) (Fin X1) (Fin Y1) (Fin X2) (Fin Y2) = Fin sc
    /\ 0 < sc /\ sc * sc = total / ((X2 - X1) * (Y2 - Y1)).
Proof.
  intros Hw Hh.
  assert (Harea : 0 < (X2 - X1) * (Y2 - Y1)) by nra.
  assert (Hq : 0 < total / ((X2 - X1) * (Y2 - Y1)))
    by (apply Rdiv_lt_0_compat; assumption).
  exists (sqrt (total / ((X2 - X1) * (Y2 - Y1)))).
  unfold scale_of. exact_ops. rewrite div_Fin by lra. rewrite sqrt_Fin by lra.
  split; [reflexivity|]. split; [now apply sqrt_lt_R0|apply sqrt_sqrt; lra].
Qed.

Section Strips.

Variable children : list (Data exact).
Variable recurse :
  list (nat -> xreal -> xreal -> result (list (Strip (Box exact)))).
Variable level : nat.
Variable sc : R.
Hypothesis sc_positive : 0 < sc.
Hypothesis wide : 0 < X2 - X1.
Hypothesis finite_sizes : Forall (fun c => finite (size c)) children.

(** What a strip of the outer loop holds. *)
Lemma strip_exact start y strips strip :
  strips_from options children recurse level (Fin total) (Fin X1) (Fin X2)
    (Fin sc) start y strips ->
  In strip strips ->
  exists S,
    s_sum strip = Fin S
    /\ S = Rsum (map weight (firstn (s_end strip - s_start strip)
                               (skipn (s_start strip) children)))
    /\ total / 10 <= S
    /\ s_heightPx strip = Fin (S / (sc * (X2 - X1)) / sc)
    /\ layout_items options children recurse level (Fin sc)
         (Fin (S / (sc * (X2 - X1)))) (Fin (S / (sc * (X2 - X1)) / sc))
         (s_y strip) (s_end strip - s_start strip) (s_start strip) (Fin X1)
       = Ok (s_items strip).
Proof.
  intros Hstrips Hin.
  eapply strips_from_inv in Hin; [|exact Hstrips].
  destruct Hin as (_ & _ & Hspan & Hcut & Hh & Hitems).
  pose proof (selectSpan_sum _ _ finite_sizes Hspan) as Hsum.
  set (S := Rsum _) in Hsum.
  exists S. rewrite Hsum in *. exact_ops.
  assert (Hspace : sc * (X2 - X1) <> 0) by nra.
  rewrite !div_Fin in * by lra.
  rewrite Hh in Hitems.
  repeat split; try assumption.
  unfold lt in Hcut. apply Rltb_false_inv in Hcut.
  assert (Hq : S = S / total * total) by (field; lra).
  rewrite Hq. clear Hq. generalize dependent (S / total). intros q Hcut. nra.
Qed.

(** Where the strips lie across the content rectangle, for weights that
    are not negative: a strip starts at or after the offset the loop is at,
    and leaves room for the children after it. *)
Lemma strips_exact_y start yy strips strip :
  Forall (fun c => nonnegative (size c)) children ->
  strips_from options children recurse level (Fin total) (Fin X1) (Fin X2)
    (Fin sc) start (Fin yy) strips ->
  In strip strips ->
  exists sy S,
    s_y strip = Fin sy /\ s_sum strip = Fin S /\ 0 <= S /\ yy <= sy
    /\ sy + (S + Rsum (map weight (skipn (s_end strip) children)))
            / (sc * (X2 - X1)) / sc
       <= yy + Rsum (map weight (skipn start children)) / (sc * (X2 - X1)) / sc.
Proof.
  intros Hnn Hstrips. remember (Fin yy) as y eqn:Hy. revert yy Hy.
  induction Hstrips as [start y Hle | start y e sum Hlt Hspan Hcut
                       | start y e sum items strips Hlt Hspan Hcut Hitems Hrest IH];
    intros yy Hy; [intros [] | intros [] | ].
  pose proof (selectSpan_sum _ _ finite_sizes Hspan) as Hsum.
  destruct (@selectSpan_bounds exact _ _ _ _ _ Hlt Hspan) as (Hgt & Hend).
  set (S := Rsum (map weight (firstn (e - start) (skipn start children)))) in *.
  assert (HS : 0 <= S).
  { apply Rsum_nonneg, weights_nonneg, Forall_firstn, Forall_skipn, Hnn. }
  assert (Hsplit : Rsum (map weight (skipn start children))
                   = S + Rsum (map weight (skipn e children))).
  { unfold S. rewrite <- Rsum_app, <- map_app.
    replace (skipn e children)
      with (skipn (e - start) (skipn start children))
      by (rewrite skipn_skipn; f_equal; lia).
    now rewrite firstn_skipn. }
  assert (Hk : 0 < / (sc * (X2 - X1)) / sc).
  { apply Rdiv_lt_0_compat; [apply Rinv_0_lt_compat; nra|assumption]. }
  assert (Hdiv : forall r, r / (sc * (X2 - X1)) / sc = r * (/ (sc * (X2 - X1)) / sc))
    by (intros r; unfold Rdiv; ring).
  intros [<- | Hin].
  - exists yy, S. simpl. rewrite Hsplit. repeat split; try assumption; lra.
  - assert (Hy' : @num_add exact y
                    (@num_div exact
                       (@num_div exact sum
                          (@num_mul exact (Fin sc)
                             (@num_sub exact (Fin X2) (Fin X1))))
                       (Fin sc))
                  = Fin (yy + S / (sc * (X2 - X1)) / sc)).
    { rewrite Hy, Hsum. exact_ops. rewrite !div_Fin by nra. reflexivity. }
    destruct (IH _ Hy' Hin) as (sy & S' & Hsy & HS' & HS'0 & Hle & Hroom).
    exists sy, S'. rewrite Hsplit. rewrite !Hdiv in *.
    repeat split; try assumption; nra.
Qed.

End Strips.

Lemma fold_add_Fin (l : list R) (a : R) :
  fold_left add (map Fin l) (Fin a) = Fin (a + Rsum l).
Proof.
  revert a. induction l as [|r l IH]; intros a; simpl.
  - f_equal. lra.
  - rewrite IH. f_equal. lra.
Qed.

(** C1 (as amended: in exact arithmetic). For a node of positive size
    with finite weights, every strip [layout] appends (one exists only if
    the content rectangle is at least 40 by 100 and the strip passed the
    cutoff) has [sum] the sum of the weights of its children, and the
    areas [widthPx * heightPx] of its elements add up to exactly
    [(sum / total) * ((x2 - x1) * (y2 - y1))]. *)
Theorem strip_area_is_weight_share children cap level strips strip :
  Forall (fun c => finite (size c)) children ->
  layout options (mkData (Fin total) (Some children) cap) level (Fin W) (Fin H)
    = Ok strips ->
  In strip strips ->
  let '(x1, y1, x2, y2) := content options (Fin W) (Fin H) in
  s_sum strip = Fin (Rsum (map (fun b => weight (b_data b)) (s_items strip)))
  /\ strip_area strip
     = (s_sum strip / Fin total * ((x2 - x1) * (y2 - y1)))%js.
Proof.
  intros Hfin Hlayout Hin. rewrite content_exact.
  eapply layout_inv in Hlayout; [|exact content_exact].
  destruct Hlayout as [-> | (Hw & Hh & Hstrips)]; [destruct Hin|].
  exact_ops. unfold lt in Hw, Hh.
  apply Rltb_false_inv in Hw, Hh.
  destruct (scale_exact Hw Hh) as (sc & Hscale & Hsc & Hsq).
  rewrite Hscale in Hstrips.
  assert (Hwide : 0 < X2 - X1) by lra.
  destruct (@strip_exact children (map (layout options) children) level sc
              Hsc Hwide Hfin 0%nat (Fin Y1) strips strip Hstrips Hin)
    as (S & HS & HSsum & HScut & Hhpx & Hitems).
  assert (HSpos : 0 < S) by lra.
  set (hgt := S / (sc * (X2 - X1))) in *.
  assert (Hhgt : 0 < hgt) by (apply Rdiv_lt_0_compat; nra).
  assert (Hdata : S = Rsum (map (fun b => weight (b_data b)) (s_items strip))).
  { rewrite HSsum, <- (layout_items_data _ _ _ _ _ _ _ _ _ _ _ Hitems).
    now rewrite map_map. }
  split; [now rewrite HS, Hdata|].
  unfold strip_area. exact_ops.
  rewrite (map_ext_in _ (fun b => Fin (weight (b_data b) * (/ hgt / sc * (hgt / sc))))).
  2:{ intros b Hb.
      assert (Hsc0 : sc <> 0) by lra. assert (Hhgt0 : hgt <> 0) by lra.
      destruct (@items_exact _ _ _ _ sc hgt _ _ _ _ _ _ b Hsc0 Hhgt0 Hfin
                  Hitems Hb) as (-> & -> & _).
      simpl. f_equal. unfold Rdiv. ring. }
  rewrite <- (map_map (fun b => weight (b_data b) * (/ hgt / sc * (hgt / sc))) Fin).
  rewrite fold_add_Fin.
  rewrite <- (map_map (fun b => weight (b_data b))
                (fun r => r * (/ hgt / sc * (hgt / sc)))).
  rewrite Rsum_scale, <- Hdata, HS. rewrite div_Fin by lra. simpl. f_equal.
  assert (Hk : / hgt / sc * (hgt / sc) = / (sc * sc)) by (field; lra).
  rewrite Hk, Hsq. field. nra.
Qed.

(** C2 (as amended: in exact arithmetic). For a node of positive size
    whose children have weights that are not negative and add up to at most
    the node's size, every element [layout] appends lies inside the content
    rectangle: [x1 <= x], [x + widthPx <= x2], [y1 <= y] and
    [y + heightPx <= y2], on the unrounded values and before the spacing
    is taken off. *)
Theorem elements_within_content children cap level strips b :
  Forall (fun c => nonnegative (size c)) children ->
  Rsum (map weight children) <= total ->
  layout options (mkData (Fin total) (Some children) cap) level (Fin W) (Fin H)
    = Ok strips ->
  In b (appended strips) ->
  let '(x1, y1, x2, y2) := content options (Fin W) (Fin H) in
  le x1 (b_x b) /\ le (b_x b + b_widthPx b)%js x2
  /\ le y1 (b_y b) /\ le (b_y b + b_heightPx b)%js y2.
Proof.
  intros Hnn Htotal Hlayout Hb. rewrite content_exact.
  pose proof (nonnegative_finite Hnn) as Hfin.
  eapply layout_inv in Hlayout; [|exact content_exact].
  destruct Hlayout as [-> | (Hw & Hh & Hstrips)]; [destruct Hb|].
  apply in_appended in Hb. destruct Hb as (strip & Hin & Hb).
  exact_ops. unfold lt in Hw, Hh. apply Rltb_false_inv in Hw, Hh.
  destruct (scale_exact Hw Hh) as (sc & Hscale & Hsc & Hsq).
  rewrite Hscale in Hstrips.
  assert (Hwide : 0 < X2 - X1) by lra.
  destruct (@strip_exact children (map (layout options) children) level sc
              Hsc Hwide Hfin 0%nat (Fin Y1) strips strip Hstrips Hin)
    as (S & HS & HSsum & HScut & Hhpx & Hitems).
  destruct (@strips_exact_y children (map (layout options) children) level sc
              Hsc Hwide Hfin 0%nat Y1 strips strip Hnn Hstrips Hin)
    as (sy & S' & Hsy & HS' & _ & Hle & Hroom).
  rewrite HS in HS'. injection HS' as <-.
  assert (HSpos : 0 < S) by lra.
  set (hgt := S / (sc * (X2 - X1))) in *.
  assert (Hhgt : 0 < hgt) by (apply Rdiv_lt_0_compat; nra).
  assert (Hsc0 : sc <> 0) by lra. assert (Hhgt0 : hgt <> 0) by lra.
  destruct (@items_exact _ _ _ _ sc hgt _ _ _ _ _ _ b Hsc0 Hhgt0 Hfin
              Hitems Hb) as (Hbw & Hbh & Hby).
  destruct (@items_exact_x options children (map (layout options) children)
              level sc hgt _ _ _ Hsc Hhgt Hnn _ _ _ b Hitems Hb)
    as (bx & Hbx & Hxle & Hxend).
  rewrite <- HSsum in Hxend.
  rewrite Hbx, Hbw, Hbh, Hby, Hsy. simpl.
  assert (Hfull : S / hgt / sc = X2 - X1) by (unfold hgt; field; lra).
  assert (Hrest : 0 <= Rsum (map weight (skipn (s_end strip) children))).
  { apply Rsum_nonneg, weights_nonneg, Forall_skipn, Hnn. }
  assert (Hk : / (sc * (X2 - X1)) / sc = (Y2 - Y1) / total).
  { replace (/ (sc * (X2 - X1)) / sc) with (/ (sc * sc) / (X2 - X1))
      by (field; lra).
    rewrite Hsq. field. lra. }
  assert (Hdiv : forall r, r / (sc * (X2 - X1)) / sc = r * ((Y2 - Y1) / total)).
  { intros r. rewrite <- Hk. unfold Rdiv. ring. }
  assert (Hkpos : 0 < (Y2 - Y1) / total) by (apply Rdiv_lt_0_compat; lra).
  simpl skipn in Hroom. rewrite !Hdiv in Hroom.
  assert (Hone : total * ((Y2 - Y1) / total) = Y2 - Y1) by (field; lra).
  repeat split; try lra.
  unfold hgt. rewrite Hdiv. nra.
Qed.

(** A node whose only child weighs at least a tenth of it, in a content
    rectangle of at least 40 by 100: [layout] appends one element. *)
Lemma single_child_layout w level :
  40 <= X2 - X1 -> 100 <= Y2 - Y1 -> total / 10 <= w ->
  exists strip b,
    layout options (node total [xleaf w]) level (Fin W) (Fin H) = Ok [strip]
    /\ s_items strip = [b].
Proof.
  intros Hw Hh Hshare.
  destruct (layout_returns options (node total [xleaf w]) level (Fin W) (Fin H))
    as [strips Hlayout].
  pose proof Hlayout as Hstrips.
  unfold node in Hstrips.
  rewrite layout_unfold, content_exact in Hstrips. exact_ops.
  unfold lt in Hstrips. rewrite !Rltb_false in Hstrips by lra.
  apply layout_strips_sound in Hstrips.
  destruct (scale_exact Hw Hh) as (sc & Hscale & _).
  rewrite Hscale in Hstrips.
  destruct (@selectSpan_nonempty exact [xleaf w]
              (@num_mul exact (Fin sc) (@num_sub exact (Fin X2) (Fin X1)))
              0%nat)
    as (e & sum & Hspan & Hgt & Hle); [simpl; lia|].
  simpl in Hle. assert (e = 1%nat) by lia. subst e.
  assert (Hfin : Forall (fun c => finite (size c)) [xleaf w]).
  { constructor; [now exists w|constructor]. }
  pose proof (selectSpan_sum _ _ Hfin Hspan) as Hsum.
  cbn [Nat.sub skipn firstn map Rsum fold_right] in Hsum.
  change (weight (xleaf w)) with w in Hsum.
  assert (Hcut : @num_lt exact (@num_div exact sum (Fin total)) num_0_1 = false).
  { rewrite Hsum. exact_ops. rewrite div_Fin by lra.
    unfold lt. apply Rltb_false.
    assert (Hq : 0 < / total) by (apply Rinv_0_lt_compat; lra).
    assert (Hone : total * / total = 1) by (apply Rinv_r; lra).
    unfold Rdiv in *. nra. }
  destruct (strips_from_single Hstrips Hspan Hcut) as (strip & b & -> & Hitems & _).
  now exists strip, b.
Qed.

(** On finite weights in a content rectangle that is not too small: the
    scale, and what each strip and each of its elements holds. *)
Lemma strip_values children cap level strips strip :
  Forall (fun c => finite (size c)) children ->
  layout options (mkData (Fin total) (Some children) cap) level (Fin W) (Fin H)
    = Ok strips ->
  In strip strips ->
  exists sc S,
    0 < sc /\ sc * sc = total / ((X2 - X1) * (Y2 - Y1))
    /\ 0 < X2 - X1 /\ 0 < Y2 - Y1 /\ 0 < S
    /\ S = Rsum (map (fun b => weight (b_data b)) (s_items strip))
    /\ s_heightPx strip = Fin (S / (sc * (X2 - X1)) / sc)
    /\ forall b, In b (s_items strip) ->
         b_widthPx b = Fin (weight (b_data b) / (S / (sc * (X2 - X1))) / sc)
         /\ b_heightPx b = s_heightPx strip
         /\ finite (size (b_data b)).
Proof.
  intros Hfin Hlayout Hin.
  eapply layout_inv in Hlayout; [|exact content_exact].
  destruct Hlayout as [-> | (Hw & Hh & Hstrips)]; [destruct Hin|].
  exact_ops. unfold lt in Hw, Hh.
  apply Rltb_false_inv in Hw, Hh.
  destruct (scale_exact Hw Hh) as (sc & Hscale & Hsc & Hsq).
  rewrite Hscale in Hstrips.
  assert (Hwide : 0 < X2 - X1) by lra.
  destruct (@strip_exact children (map (layout options) children) level sc
              Hsc Hwide Hfin 0%nat (Fin Y1) strips strip Hstrips Hin)
    as (S & HS & HSsum & HScut & Hhpx & Hitems).
  assert (HSpos : 0 < S) by lra.
  exists sc, S.
  split; [exact Hsc|]. split; [exact Hsq|]. split; [exact Hwide|].
  split; [lra|]. split; [exact HSpos|]. split; [|split; [exact Hhpx|]].
  - rewrite HSsum, <- (layout_items_data _ _ _ _ _ _ _ _ _ _ _ Hitems).
    now rewrite map_map.
  - intros b Hb.
    assert (Hhgt : 0 < S / (sc * (X2 - X1))) by (apply Rdiv_lt_0_compat; nra).
    assert (Hsc0 : sc <> 0) by lra.
    assert (Hhgt0 : S / (sc * (X2 - X1)) <> 0) by lra.
    destruct (@items_exact _ _ _ _ sc _ _ _ _ _ _ _ b Hsc0 Hhgt0 Hfin
                Hitems Hb) as (-> & -> & _).
    split; [reflexivity|]. split; [now rewrite Hhpx|].
    eapply layout_items_inv in Hb; [|exact Hitems].
    destruct Hb as (Hdata & _). rewrite Forall_forall in Hfin.
    apply Hfin. eapply nth_error_In; eassumption.
Qed.

(** Every strip spans the whole width of the content rectangle (in exact
    arithmetic, on finite weights): the unrounded widths of its elements,
    added to [x1] one after the other as the inner loop does with
    [x += widthPx], end exactly at [x2]. *)
Theorem strip_spans_content_width children cap level strips strip :
  Forall (fun c => finite (size c)) children ->
  layout options (mkData (Fin total) (Some children) cap) level (Fin W) (Fin H)
    = Ok strips ->
  In strip strips ->
  let '(x1, y1, x2, y2) := content options (Fin W) (Fin H) in
  fold_left num_add (map (fun b => b_widthPx b) (s_items strip)) x1 = x2.
Proof.
  intros Hfin Hlayout Hin. rewrite content_exact.
  destruct (strip_values _ _ _ Hfin Hlayout Hin)
    as (sc & S & Hsc & Hsq & Hwide & Hhigh & HS & Hsum & _ & Hwidth).
  set (hgt := S / (sc * (X2 - X1))) in *.
  assert (Hhgt : 0 < hgt) by (apply Rdiv_lt_0_compat; nra).
  exact_ops.
  rewrite (map_ext_in _ (fun b => Fin (weight (b_data b) * (/ hgt / sc)))).
  2:{ intros b Hb. destruct (Hwidth b Hb) as (-> & _).
      f_equal. unfold Rdiv. ring. }
  rewrite <- (map_map (fun b => weight (b_data b) * (/ hgt / sc)) Fin).
  rewrite fold_add_Fin.
  rewrite <- (map_map (fun b => weight (b_data b)) (fun r => r * (/ hgt / sc))).
  rewrite Rsum_scale, <- Hsum. f_equal. unfold hgt. field. lra.
Qed.

Lemma strips_heights k strips yy :
  (forall strip, In strip strips ->
     s_heightPx strip
     = Fin (Rsum (map (fun b => weight (b_data b)) (s_items strip)) * k)) ->
  fold_left add (map (fun strip : Strip (Box exact) => s_heightPx strip) strips)
    (Fin yy)
  = Fin (yy + Rsum (map (fun b => weight (b_data b)) (appended strips)) * k).
Proof.
  revert yy. induction strips as [|strip strips IH]; intros yy Hall.
  - simpl. f_equal. lra.
  - cbn [map fold_left]. rewrite (Hall strip) by now left.
    cbn [add]. rewrite IH by (intros s Hs; apply Hall; now right).
    unfold appended. cbn [map concat]. rewrite map_app, Rsum_app.
    f_equal. unfold appended. lra.
Qed.

(** The strips take up the share of the content height that the weight of
    the children laid out is of the node's size (in exact arithmetic, on
    finite weights): the unrounded thicknesses, added to [y1] one after the
    other as the outer loop does with [y += heightPx], end at
    [y1 + (weight laid out / total) * (y2 - y1)]; so when the weights of
    the children laid out add up to the node's size, the strips end exactly
    at [y2]. *)
Theorem strips_height_is_weight_share children cap level strips :
  Forall (fun c => finite (size c)) children ->
  layout options (mkData (Fin total) (Some children) cap) level (Fin W) (Fin H)
    = Ok strips ->
  let '(x1, y1, x2, y2) := content options (Fin W) (Fin H) in
  let laid := Rsum (map (fun b => weight (b_data b)) (appended strips)) in
  let bottom :=
    fold_left num_add (map (fun strip => s_heightPx strip) strips) y1 in
  bottom = (y1 + Fin laid / Fin total * (y2 - y1))%js
  /\ (laid = total -> bottom = y2).
Proof.
  intros Hfin Hlayout. rewrite content_exact. cbv zeta.
  set (laid := Rsum (map (fun b => weight (b_data b)) (appended strips))).
  assert (Hcases : strips = [] \/ exists strip0, In strip0 strips).
  { destruct strips as [|strip0 strips']; [now left|right].
    exists strip0. now left. }
  destruct Hcases as [Hnil | (strip0 & Hin0)].
  - subst strips. split.
    + exact_ops. rewrite div_Fin by lra. simpl. f_equal.
      unfold laid, appended. simpl. unfold Rdiv. ring.
    + unfold laid, appended. simpl. lra.
  - destruct (strip_values _ _ _ Hfin Hlayout Hin0)
      as (sc & _ & Hsc & Hsq & Hwide & Hhigh & _).
    assert (Hk : / (sc * (X2 - X1)) / sc = (Y2 - Y1) / total).
    { replace (/ (sc * (X2 - X1)) / sc) with (/ (sc * sc) / (X2 - X1))
        by (field; lra).
      rewrite Hsq. field. lra. }
    assert (Hbottom :
      fold_left add (map (fun strip : Strip (Box exact) => s_heightPx strip)
                       strips) (Fin Y1)
      = Fin (Y1 + laid * ((Y2 - Y1) / total))).
    { apply strips_heights. intros strip Hin.
      destruct (strip_values _ _ _ Hfin Hlayout Hin)
        as (sc' & S & Hsc' & Hsq' & _ & _ & _ & Hsum & Hhpx & _).
      assert (sc' = sc) by nra. subst sc'.
      rewrite Hhpx, <- Hsum, <- Hk. f_equal. unfold Rdiv. ring. }
    exact_ops. rewrite div_Fin by lra. cbn [mul add sub].
    change (@num_add exact) with add. rewrite Hbottom.
    split; [f_equal; unfold Rdiv; ring|].
    intros ->. f_equal. field. lra.
Qed.

(** The area of every element is the share of the content area that the
    weight of its node is of the size of the parent (in exact arithmetic, on
    finite weights): unrounded [widthPx * heightPx] is
    [(size / total) * ((x2 - x1) * (y2 - y1))]. *)
Theorem element_area_is_weight_share children cap level strips b :
  Forall (fun c => finite (size c)) children ->
  layout options (mkData (Fin total) (Some children) cap) level (Fin W) (Fin H)
    = Ok strips ->
  In b (appended strips) ->
  let '(x1, y1, x2, y2) := content options (Fin W) (Fin H) in
  (b_widthPx b * b_heightPx b)%js
  = (size (b_data b) / Fin total * ((x2 - x1) * (y2 - y1)))%js.
Proof.
  intros Hfin Hlayout Hb. rewrite content_exact.
  apply in_appended in Hb. destruct Hb as (strip & Hin & Hb).
  destruct (strip_values _ _ _ Hfin Hlayout Hin)
    as (sc & S & Hsc & Hsq & Hwide & Hhigh & HS & Hsum & Hhpx & Hitems).
  destruct (Hitems b Hb) as (Hw & Hh & Hfinite).
  rewrite Hw, Hh, Hhpx, (finite_weight _ Hfinite).
  exact_ops. rewrite div_Fin by lra. cbn [mul]. f_equal.
  set (w := weight (b_data b)).
  replace (w / (S / (sc * (X2 - X1))) / sc * (S / (sc * (X2 - X1)) / sc))
    with (w * / (sc * sc)) by (field; lra).
  rewrite Hsq. field. nra.
Qed.

Lemma strips_weight_bound (q : R) (strips : list (Strip (Box exact))) :
  (forall strip, In strip strips ->
     q <= Rsum (map (fun b => weight (b_data b)) (s_items strip))) ->
  INR (length strips) * q
  <= Rsum (map (fun b => weight (b_data b)) (appended strips)).
Proof.
  induction strips as [|strip strips IH]; intros Hall.
  - unfold appended. simpl. lra.
  - unfold appended. cbn [map concat]. rewrite map_app, Rsum_app.
    fold (appended strips). change (length (strip :: strips))
      with (Datatypes.S (length strips)).
    rewrite S_INR.
    pose proof (Hall strip (or_introl eq_refl)) as Hstrip.
    assert (Hrest : INR (length strips) * q
                    <= Rsum (map (fun b => weight (b_data b))
                               (appended strips)))
      by (apply IH; intros s Hs; apply Hall; now right).
    lra.
Qed.

(** A node gets at most ten strips (in exact arithmetic), when its
    children's weights are not negative and add up to at most its size:
    every strip that passes the cutoff weighs at least a tenth of the
    node. *)
Theorem at_most_ten_strips children cap level strips :
  Forall (fun c => nonnegative (size c)) children ->
  Rsum (map weight children) <= total ->
  layout options (mkData (Fin total) (Some children) cap) level (Fin W) (Fin H)
    = Ok strips ->
  (length strips <= 10)%nat.
Proof.
  intros Hnn Htotal Hlayout.
  pose proof (nonnegative_finite Hnn) as Hfin.
  assert (Hlaid : Rsum (map (fun b => weight (b_data b)) (appended strips))
                  <= Rsum (map weight children)).
  { destruct (@layout_prefix exact _ _ _ _ _ _ _ _ Hlayout)
      as (n & _ & _ & Hdata).
    rewrite <- (map_map (@b_data exact) weight), Hdata.
    rewrite <- (firstn_skipn n children) at 2. rewrite map_app, Rsum_app.
    assert (0 <= Rsum (map weight (skipn n children)))
      by (apply Rsum_nonneg, weights_nonneg, Forall_skipn, Hnn).
    lra. }
  assert (Hten : INR (length strips) * (total / 10)
                 <= Rsum (map (fun b => weight (b_data b)) (appended strips))).
  { apply strips_weight_bound. intros strip Hin.
    eapply layout_inv in Hlayout; [|exact content_exact].
    destruct Hlayout as [-> | (Hw & Hh & Hstrips)]; [destruct Hin|].
    exact_ops. unfold lt in Hw, Hh. apply Rltb_false_inv in Hw, Hh.
    destruct (scale_exact Hw Hh) as (sc & Hscale & Hsc & Hsq).
    rewrite Hscale in Hstrips.
    assert (Hwide : 0 < X2 - X1) by lra.
    destruct (@strip_exact children (map (layout options) children) level sc
                Hsc Hwide Hfin 0%nat (Fin Y1) strips strip Hstrips Hin)
      as (S & HS & HSsum & HScut & Hhpx & Hitems).
    rewrite <- (map_map (@b_data exact) weight).
    rewrite (layout_items_data _ _ _ _ _ _ _ _ _ _ _ Hitems), <- HSsum.
    exact HScut. }
  apply INR_le. replace (INR 10) with 10 by (simpl; lra).
  assert (Hlen : 0 <= INR (length strips)) by apply pos_INR.
  nra.
Qed.

End ContentRectangle.

(** ** The theorems at concrete inputs *)

Lemma strip_area_is_weight_share_witness :
  exists strips strip,
    layout newOptions (node 100 [xleaf 100]) 0 (Fin 100) (Fin 100) = Ok strips
    /\ In strip strips
    /\ s_sum strip
       = Fin (Rsum (map (fun b => weight (b_data b)) (s_items strip)))
    /\ strip_area strip
       = (s_sum strip / Fin 100 * ((Fin (100 - 0) - Fin (0 + 0))
                                   * (Fin (100 - 0) - Fin (0 + 0))))%js.
Proof.
  assert (H100 : 0 < 100) by lra.
  destruct (@single_child_layout newOptions 100 100 0 0 0 0 100 eq_refl H100
              100 0%nat) as (strip & b & Hlayout & Hitems); try lra.
  exists [strip], strip. split; [exact Hlayout|]. split; [left; reflexivity|].
  apply (@strip_area_is_weight_share newOptions 100 100 0 0 0 0 100 eq_refl
           H100 [xleaf 100] None 0%nat [strip] strip).
  - constructor; [now exists 100|constructor].
  - exact Hlayout.
  - left. reflexivity.
Defined.

Lemma elements_within_content_witness :
  exists strips b,
    layout newOptions (node 100 [xleaf 100]) 0 (Fin 100) (Fin 100) = Ok strips
    /\ In b (appended strips)
    /\ le (Fin (0 + 0)) (b_x b)
    /\ le (b_x b + b_widthPx b)%js (Fin (100 - 0))
    /\ le (Fin (0 + 0)) (b_y b)
    /\ le (b_y b + b_heightPx b)%js (Fin (100 - 0)).
Proof.
  assert (H100 : 0 < 100) by lra.
  destruct (@single_child_layout newOptions 100 100 0 0 0 0 100 eq_refl H100
              100 0%nat) as (strip & b & Hlayout & Hitems); try lra.
  assert (Hb : In b (appended [strip])).
  { unfold appended. simpl. rewrite Hitems. left. reflexivity. }
  exists [strip], b. split; [exact Hlayout|]. split; [exact Hb|].
  apply (@elements_within_content newOptions 100 100 0 0 0 0 100 eq_refl
           H100 [xleaf 100] None 0%nat [strip] b).
  - constructor; [exists 100; split; [reflexivity|lra]|constructor].
  - unfold weight. simpl. lra.
  - exact Hlayout.
  - exact Hb.
Defined.

Lemma recorded_score_never_increases_witness :
  let cs := leaves [10; 9; 1] in
  let final := span_loop (Fin 10) cs (span_init (xleaf 10) 0) in
  selectSpan cs (Fin 10) 0 = Ok (end_ final, sum final)
  /\ visits cs (Fin 10) 0 final
  /\ (forall st, visits cs (Fin 10) 0 st -> (0 < end_ st)%nat ->
        le (lastScore final) (lastScore st)).
Proof.
  intros cs final.
  assert (Hpos : Forall (fun c => positive (size c)) cs).
  { repeat constructor; eexists; (split; [reflexivity|lra]). }
  assert (Hspace : positive (Fin 10)) by (exists 10; split; [reflexivity|lra]).
  destruct (@recorded_score_never_increases cs (Fin 10) 0%nat (xleaf 10)
              Hpos Hspace eq_refl) as (Hres & Hv & _ & _ & Hmin).
  split; [exact Hres|]. split; [exact Hv|exact Hmin].
Defined.

Lemma selectSpan_returns_span_weight_witness :
  selectSpan [xleaf 100] (Fin 10) 0 = Ok (1%nat, Fin (0 + 100))
  /\ Fin (0 + 100) = Fin (Rsum (map weight (firstn (1 - 0) (skipn 0 [xleaf 100])))).
Proof.
  assert (Hrun : selectSpan [xleaf 100] (Fin 10) 0 = Ok (1%nat, Fin (0 + 100))).
  { unfold selectSpan. cbn [nth_error skipn span_loop]. unfold span_step.
    rewrite (@rejects_init exact). reflexivity. }
  split; [exact Hrun|].
  apply (@selectSpan_returns_span_weight [xleaf 100] (Fin 10) 0%nat 1%nat
           (Fin (0 + 100))).
  - constructor; [now exists 100|constructor].
  - exact Hrun.
Defined.

Lemma rejects_after_first_item_witness :
  let st1 := include (Fin 10) (span_init (xleaf 10) 0) (xleaf 10) in
  visits (leaves [10; 9; 1]) (Fin 10) 0 st1
  /\ rejects (Fin 10) st1 (xleaf 9)
     = Nat.ltb 0 (end_ st1)
       && lt (lastScore st1) (score (Fin 10) st1 (xleaf 9)).
Proof.
  intros st1.
  assert (Hv : visits (leaves [10; 9; 1]) (Fin 10) 0 st1).
  { apply (@visits_include exact (leaves [10; 9; 1]) (Fin 10) 0%nat
             (span_init (xleaf 10) 0) (xleaf 10)).
    - apply (@visits_init exact (leaves [10; 9; 1]) (Fin 10) 0%nat (xleaf 10)).
      reflexivity.
    - reflexivity.
    - apply (@rejects_init exact). }
  split; [exact Hv|].
  apply (@rejects_after_first_item (leaves [10; 9; 1]) (Fin 10) 0%nat st1
           (xleaf 9)).
  - repeat constructor; eexists; (split; [reflexivity|lra]).
  - exists 10. split; [reflexivity|lra].
  - exact Hv.
Defined.

Lemma zero_weight_after_start_ends_span_witness :
  exists e s, selectSpan (leaves [5; 0]) (Fin 10) 0 = Ok (e, s)
              /\ (0 < e <= 1)%nat.
Proof.
  assert (Hspace : positive (Fin 10)) by (exists 10; split; [reflexivity|lra]).
  assert (Hpos : forall i c, (0 <= i < 1)%nat ->
            nth_error (leaves [5; 0]) i = Some c -> positive (size c)).
  { intros [|i] c Hi; [|lia]. intros [= <-].
    exists 5. split; [reflexivity|lra]. }
  exact (proj2 (@zero_weight_after_start_ends_span (leaves [5; 0]) (Fin 10)
                  0%nat 1%nat (xleaf 0) Hspace Nat.lt_0_1 Hpos
                  eq_refl eq_refl)).
Defined.


Lemma strip_spans_content_width_witness :
  exists strips strip,
    layout newOptions (node 100 [xleaf 100]) 0 (Fin 100) (Fin 100) = Ok strips
    /\ In strip strips
    /\ fold_left num_add (map (fun b => b_widthPx b) (s_items strip))
         (Fin (0 + 0))
       = Fin (100 - 0).
Proof.
  assert (H100 : 0 < 100) by lra.
  destruct (@single_child_layout newOptions 100 100 0 0 0 0 100 eq_refl H100
              100 0%nat) as (strip & b & Hlayout & Hitems); try lra.
  exists [strip], strip. split; [exact Hlayout|]. split; [left; reflexivity|].
  apply (@strip_spans_content_width newOptions 100 100 0 0 0 0 100 eq_refl
           H100 [xleaf 100] None 0%nat [strip] strip).
  - constructor; [now exists 100|constructor].
  - exact Hlayout.
  - left. reflexivity.
Defined.

Lemma strips_height_is_weight_share_witness :
  exists strips,
    layout newOptions (node 100 [xleaf 100]) 0 (Fin 100) (Fin 100) = Ok strips
    /\ let laid := Rsum (map (fun b => weight (b_data b)) (appended strips)) in
       let bottom :=
         fold_left num_add (map (fun strip => s_heightPx strip) strips)
           (Fin (0 + 0)) in
       bottom = (Fin (0 + 0) + Fin laid / Fin 100
                               * (Fin (100 - 0) - Fin (0 + 0)))%js
       /\ (laid = 100 -> bottom = Fin (100 - 0)).
Proof.
  assert (H100 : 0 < 100) by lra.
  destruct (@single_child_layout newOptions 100 100 0 0 0 0 100 eq_refl H100
              100 0%nat) as (strip & b & Hlayout & Hitems); try lra.
  exists [strip]. split; [exact Hlayout|].
  apply (@strips_height_is_weight_share newOptions 100 100 0 0 0 0 100 eq_refl
           H100 [xleaf 100] None 0%nat [strip]).
  - constructor; [now exists 100|constructor].
  - exact Hlayout.
Defined.
Lemma element_area_is_weight_share_witness :
  exists strips b,
    layout newOptions (node 100 [xleaf 100]) 0 (Fin 100) (Fin 100) = Ok strips
    /\ In b (appended strips)
    /\ (b_widthPx b * b_heightPx b)%js
       = (size (b_data b) / Fin 100
          * ((Fin (100 - 0) - Fin (0 + 0)) * (Fin (100 - 0) - Fin (0 + 0))))%js.
Proof.
  assert (H100 : 0 < 100) by lra.
  destruct (@single_child_layout newOptions 100 100 0 0 0 0 100 eq_refl H100
              100 0%nat) as (strip & b & Hlayout & Hitems); try lra.
  assert (Hb : In b (appended [strip])).
  { unfold appended. simpl. rewrite Hitems. left. reflexivity. }
  exists [strip], b. split; [exact Hlayout|]. split; [exact Hb|].
  apply (@element_area_is_weight_share newOptions 100 100 0 0 0 0 100 eq_refl
           H100 [xleaf 100] None 0%nat [strip] b).
  - constructor; [now exists 100|constructor].
  - exact Hlayout.
  - exact Hb.
Defined.

Lemma at_most_ten_strips_witness :
  exists strips,
    layout newOptions (node 100 [xleaf 100]) 0 (Fin 100) (Fin 100) = Ok strips
    /\ (length strips <= 10)%nat.
Proof.
  assert (H100 : 0 < 100) by lra.
  destruct (@single_child_layout newOptions 100 100 0 0 0 0 100 eq_refl H100
              100 0%nat) as (strip & b & Hlayout & Hitems); try lra.
  exists [strip]. split; [exact Hlayout|].
  apply (@at_most_ten_strips newOptions 100 100 0 0 0 0 100 eq_refl
           H100 [xleaf 100] None 0%nat [strip]).
  - constructor; [exists 100; split; [reflexivity|lra]|constructor].
  - unfold weight. simpl. lra.
  - exact Hlayout.
Defined.

End Exact_facts.

(** * Properties on binary64 numbers *)

Module IEEE_facts.

Import PrimFloat IEEE.
Import SpecFloat FloatOps FloatAxioms.
Local Open Scope float_scope.

(** ** The order on binary64 numbers *)

(** The order on the specification of binary64 numbers. *)
Lemma SFcompare_antisym (s t : spec_float) (c : comparison) :
  SFcompare s t = Some c -> SFcompare t s = Some (CompOpp c).
Proof.
  destruct s as [[|]| [|] | | [|] m1 e1], t as [[|]| [|] | | [|] m2 e2];
    simpl; try discriminate; try (intros [= <-]; reflexivity).
  - intros [= <-]. f_equal. rewrite (Z.compare_antisym e1 e2).
    destruct (e1 ?= e2)%Z; simpl; try reflexivity.
    change (Pos.compare_cont Eq m1 m2) with (Pos.compare m1 m2).
    change (Pos.compare_cont Eq m2 m1) with (Pos.compare m2 m1).
    rewrite (Pos.compare_antisym m1 m2). reflexivity.
  - intros [= <-]. f_equal. rewrite (Z.compare_antisym e1 e2).
    destruct (e1 ?= e2)%Z; simpl; try reflexivity.
    change (Pos.compare_cont Eq m1 m2) with (Pos.compare m1 m2).
    change (Pos.compare_cont Eq m2 m1) with (Pos.compare m2 m1).
    rewrite (Pos.compare_antisym m1 m2). reflexivity.
Qed.

Lemma SFcompare_refl (s : spec_float) :
  s <> S754_nan -> SFcompare s s = Some Eq.
Proof.
  destruct s as [[|]| [|] | | [|] m e]; simpl; try reflexivity;
    try congruence; intros _; rewrite Z.compare_refl;
    change (Pos.compare_cont Eq m m) with (Pos.compare m m);
    now rewrite Pos.compare_refl.
Qed.

Lemma SFcompare_some (s t : spec_float) :
  s <> S754_nan -> t <> S754_nan -> exists c, SFcompare s t = Some c.
Proof.
  destruct s as [[|]| [|] | | [|] m1 e1], t as [[|]| [|] | | [|] m2 e2];
    simpl; try congruence; intros _ _; eexists; reflexivity.
Qed.

Lemma SFleb_trans (s t u : spec_float) :
  SFleb s t = true -> SFleb t u = true -> SFleb s u = true.
Proof.
  unfold SFleb.
  destruct s as [[|]| [|] | | [|] m1 e1], t as [[|]| [|] | | [|] m2 e2],
    u as [[|]| [|] | | [|] m3 e3];
    simpl; try discriminate; try reflexivity;
    change (Pos.compare_cont Eq m1 m2) with (Pos.compare m1 m2);
    change (Pos.compare_cont Eq m2 m3) with (Pos.compare m2 m3);
    change (Pos.compare_cont Eq m1 m3) with (Pos.compare m1 m3);
    destruct (Z.compare_spec e1 e2), (Z.compare_spec e2 e3),
      (Z.compare_spec e1 e3);
    simpl; try discriminate; try reflexivity; try lia;
    destruct (Pos.compare_spec m1 m2), (Pos.compare_spec m2 m3),
      (Pos.compare_spec m1 m3);
    simpl; try discriminate; try reflexivity; try lia.
Qed.

(** Comparisons of binary64 numbers. *)

Lemma is_nan_spec (x : float) :
  is_nan x = false <-> Prim2SF x <> S754_nan.
Proof.
  unfold is_nan. rewrite eqb_spec. unfold SFeqb. split.
  - intros H Hnan. rewrite Hnan in H. discriminate.
  - intros H. now rewrite (SFcompare_refl H).
Qed.

Lemma leb_refl (x : float) : is_nan x = false -> (x <=? x) = true.
Proof.
  intros H. apply is_nan_spec in H. rewrite leb_spec. unfold SFleb.
  now rewrite (SFcompare_refl H).
Qed.

Lemma leb_trans (x y z : float) :
  (x <=? y) = true -> (y <=? z) = true -> (x <=? z) = true.
Proof. rewrite !leb_spec. apply SFleb_trans. Qed.

(** Of two numbers neither of which is [NaN], the first is below the
    second or the second is at most the first. *)
Lemma ltb_false_leb (x y : float) :
  is_nan x = false -> is_nan y = false -> (x <? y) = false -> (y <=? x) = true.
Proof.
  intros Hx Hy. apply is_nan_spec in Hx, Hy.
  rewrite ltb_spec, leb_spec. unfold SFltb, SFleb.
  destruct (SFcompare_some Hx Hy) as [c Hc].
  rewrite Hc, (SFcompare_antisym _ _ Hc).
  destruct c; simpl; congruence.
Qed.

Lemma truthy_not_nan (x : float) : truthy x = true -> is_nan x = false.
Proof.
  unfold truthy. destruct (is_nan x); [discriminate|reflexivity].
Qed.


(** ** The recorded score on binary64 numbers *)

Implicit Types (children : list (Data ieee)) (st : SpanState ieee).
Implicit Types (space : float) (c : Data ieee).

(** An included candidate does not raise the score, when the score recorded
    before it and its own are neither [NaN] nor 0. *)
Lemma include_score_leb space st c :
  truthy (lastScore st) = true ->
  truthy (score space st c) = true ->
  rejects space st c = false ->
  (score space st c <=? lastScore st) = true.
Proof.
  intros Hlast Hscore Hr. unfold rejects in Hr.
  change (num_truthy (lastScore st)) with (truthy (lastScore st)) in Hr.
  rewrite Hlast in Hr. cbn [andb] in Hr.
  apply ltb_false_leb; [now apply truthy_not_nan | now apply truthy_not_nan |].
  exact Hr.
Qed.

(** From a state on, the loop only lowers [lastScore], when the recorded
    scores are neither [NaN] nor 0. *)
Lemma span_loop_score_leb children space start st :
  (forall st', visits children space start st' -> (start < end_ st')%nat ->
               truthy (lastScore st') = true) ->
  visits children space start st -> (start < end_ st)%nat ->
  (lastScore (span_loop space (skipn (end_ st) children) st) <=? lastScore st)
  = true.
Proof.
  intros Htruthy.
  remember (length children - end_ st)%nat as n eqn:Hn.
  revert st Hn. induction n as [|n IH]; intros st Hn Hv Hend.
  - rewrite span_loop_exhausted
      by (apply nth_error_None; pose proof (visits_end_le Hv); lia).
    apply leb_refl, truthy_not_nan, Htruthy; assumption.
  - destruct (nth_error children (end_ st)) as [c|] eqn:Hc;
      [|apply nth_error_None in Hc; lia].
    assert (Hlt : (end_ st < length children)%nat)
      by (apply nth_error_Some; congruence).
    destruct (rejects (N:=ieee) space st c) eqn:Hr.
    + rewrite (span_loop_break (N:=ieee) _ _ _ Hc Hr).
      apply leb_refl, truthy_not_nan, Htruthy; assumption.
    + rewrite (span_loop_continue (N:=ieee) _ _ _ Hc Hr).
      assert (Hv' : visits children space start (include (N:=ieee) space st c))
        by (now apply visits_include).
      apply leb_trans with (lastScore (include (N:=ieee) space st c)).
      * apply IH; [simpl; lia | assumption | simpl; lia].
      * apply include_score_leb; [now apply Htruthy | | assumption].
        apply (Htruthy _ Hv'). simpl. lia.
Qed.

(** C10 (as amended: for calls in which no recorded score is [NaN] or 0).
    On binary64 numbers, in a call in which every score recorded is truthy
    (neither [NaN] nor 0, the values the test of line 135 takes for no
    score), the recorded score never goes up: the score of every candidate
    included after the first is at most the score recorded before it, and
    the score the call ends with, that of the last included item, is the
    least of the recorded scores. *)
Theorem recorded_scores_descend children space start first :
  nth_error children start = Some first ->
  (forall st, visits children space start st -> (start < end_ st)%nat ->
              truthy (lastScore st) = true) ->
  let final := span_loop space (skipn start children) (span_init first start) in
  selectSpan children space start = Ok (end_ final, sum final)
  /\ visits children space start final
  /\ (start < end_ final)%nat
  /\ (forall st c,
        visits children space start st -> (start < end_ st)%nat ->
        nth_error children (end_ st) = Some c ->
        rejects space st c = false ->
        (score space st c <=? lastScore st) = true)
  /\ (forall st,
        visits children space start st -> (start < end_ st)%nat ->
        (lastScore final <=? lastScore st) = true).
Proof.
  intros Hf Htruthy final.
  pose proof (visits_init _ space _ Hf) as Hinit.
  assert (Hfinal : visits children space start final).
  { apply (visits_final Hinit). }
  assert (Hstart : (start < length children)%nat)
    by (apply nth_error_Some; congruence).
  split; [|split; [assumption|split; [|split]]].
  - unfold selectSpan. now rewrite Hf.
  - destruct (selectSpan_nonempty children space Hstart)
      as (e & s & He & Hgt & _).
    unfold selectSpan in He. rewrite Hf in He. injection He as <- _.
    exact Hgt.
  - intros st c Hv Hend Hc Hr.
    apply include_score_leb; [now apply Htruthy | | assumption].
    apply (Htruthy (include (N:=ieee) space st c));
      [now apply visits_include | simpl; lia].
  - intros st Hv Hend. unfold final.
    rewrite (span_loop_resume Hf Hv).
    now apply span_loop_score_leb with (start := start).
Qed.


(** ** Zero, infinity and the operations *)

Lemma Prim2SF_zero : Prim2SF 0 = S754_zero false.
Proof. reflexivity. Qed.

Lemma Prim2SF_infinity : Prim2SF infinity = S754_infinity false.
Proof. reflexivity. Qed.

(** A number above 0 is a positive finite number or [Infinity]. *)
Lemma positive_cases (x : float) :
  (0 <? x) = true ->
  (exists m e, Prim2SF x = S754_finite false m e)
  \/ Prim2SF x = S754_infinity false.
Proof.
  rewrite ltb_spec, Prim2SF_zero. unfold SFltb.
  destruct (Prim2SF x) as [[|]| [|] | | [|] m e]; simpl; try discriminate.
  - now right.
  - left. now exists m, e.
Qed.

Lemma positive_finite (x : float) :
  (0 <? x) = true -> (x <? infinity) = true ->
  exists m e, Prim2SF x = S754_finite false m e.
Proof.
  intros Hpos Hfin. destruct (positive_cases Hpos) as [H | H]; [exact H|].
  rewrite ltb_spec, Prim2SF_infinity, H in Hfin. discriminate.
Qed.

Lemma positive_not_below_zero (x : float) :
  (0 <? x) = true -> (x <? 0) = false.
Proof.
  intros Hpos. destruct (positive_cases Hpos) as [(m & e & H) | H];
    rewrite ltb_spec, Prim2SF_zero, H; reflexivity.
Qed.

Lemma mul_zero_positive (x : float) :
  (0 <? x) = true -> (x <? infinity) = true -> 0 * x = 0.
Proof.
  intros Hpos Hfin. destruct (positive_finite Hpos Hfin) as (m & e & H).
  apply Prim2SF_inj. rewrite mul_spec, Prim2SF_zero, H. reflexivity.
Qed.

Lemma div_positive_zero (x : float) : (0 <? x) = true -> x / 0 = infinity.
Proof.
  intros Hpos. apply Prim2SF_inj.
  rewrite div_spec, Prim2SF_zero, Prim2SF_infinity.
  destruct (positive_cases Hpos) as [(m & e & H) | H]; rewrite H; reflexivity.
Qed.

(** Adding [+0] changes nothing, except for [-0]; and the square of
    [-0 + 0] is not above 0. *)
Lemma add_zero_square (x : float) :
  (0 <? (x + 0) * (x + 0)) = true -> x + 0 = x.
Proof.
  intros Hsq. apply Prim2SF_inj. rewrite add_spec, Prim2SF_zero.
  rewrite ltb_spec, mul_spec, add_spec, !Prim2SF_zero in Hsq.
  destruct (Prim2SF x) as [[|]| [|] | | [|] m e]; try reflexivity;
    discriminate.
Qed.

Lemma not_below_infinity (x : float) :
  is_nan x = false -> (x <? infinity) = false -> x = infinity.
Proof.
  intros Hnan Hlt. apply is_nan_spec in Hnan. apply Prim2SF_inj.
  rewrite ltb_spec, Prim2SF_infinity in Hlt. rewrite Prim2SF_infinity.
  destruct (Prim2SF x) as [[|]| [|] | | [|] m e]; try reflexivity;
    try discriminate; congruence.
Qed.

Lemma infinity_not_below (x : float) : (infinity <? x) = false.
Proof.
  rewrite ltb_spec, Prim2SF_infinity.
  destruct (Prim2SF x) as [[|]| [|] | | [|] m e]; reflexivity.
Qed.

(** [Math.max] on binary64 numbers. *)
Lemma Math_max_infinity (x : float) :
  is_nan x = false -> Math_max x infinity = infinity.
Proof.
  intros Hnan. unfold Math_max. rewrite Hnan. cbn [orb].
  change (is_nan infinity) with false. cbv iota.
  destruct (x <? infinity) eqn:Hlt; [reflexivity|].
  rewrite (not_below_infinity Hnan Hlt). reflexivity.
Qed.

Lemma Math_max_not_nan (x y : float) :
  is_nan (Math_max x y) = false -> is_nan x = false.
Proof.
  unfold Math_max. destruct (is_nan x); [|reflexivity].
  cbn [orb]. intros H. exact H.
Qed.


(** ** A weight of 0 after the start, on binary64 numbers *)

(** The recorded score in terms of the other variables of the loop. *)
Lemma visits_lastScore children space start st :
  visits children space start st -> (start < end_ st)%nat ->
  lastScore st
  = Math_max (smax st * space * space / (sum st * sum st))
             (sum st * sum st / (smin st * space * space)).
Proof. destruct 1; simpl; [lia|reflexivity]. Qed.

(** Over weights above 0 the running minimum and maximum are above 0. *)
Lemma visits_positive children space start k st :
  (forall i c, (start <= i < k)%nat -> nth_error children i = Some c ->
               (0 <? size c) = true) ->
  (start < k)%nat ->
  visits children space start st -> (end_ st <= k)%nat ->
  (0 <? smin st) = true /\ (0 <? smax st) = true.
Proof.
  intros Hpos Hk. induction 1 as [first Hf | st c Hv IH Hc Hr]; intros Hend.
  - simpl. split; apply (Hpos start first); try assumption; lia.
  - simpl in Hend. destruct IH as (Hmin & Hmax); [lia|].
    pose proof (visits_end_ge Hv) as Hge.
    assert (Hcp : (0 <? size c) = true) by (apply (Hpos (end_ st)); [lia|assumption]).
    simpl. unfold next_smin, next_smax.
    change (@num_lt ieee) with ltb.
    split.
    + destruct (size c <? smin st); assumption.
    + destruct (smax st <? size c); assumption.
Qed.

(** At a candidate of weight [+0], with the running minimum above 0, a
    [space] that is positive and finite, and a square of [nextSum] that is
    above 0: the ratio is [Infinity]; and the candidate is rejected if the
    recorded score is truthy and below [Infinity]. *)
Lemma zero_candidate children space start st z :
  (0 <? space) = true -> (space <? infinity) = true ->
  visits children space start st -> (start < end_ st)%nat ->
  (0 <? smin st) = true -> (0 <? smax st) = true ->
  size z = 0 ->
  (0 <? nextSum st z * nextSum st z) = true ->
  scoreFromMin space st z = infinity
  /\ (truthy (lastScore st) = true -> (lastScore st <? infinity) = true ->
      rejects space st z = true).
Proof.
  intros Hsp Hfin Hv Hend Hmin Hmax Hsize Hsq.
  assert (Hfrom_min : scoreFromMin space st z = infinity).
  { unfold scoreFromMin, next_smin. change (@num_lt ieee) with ltb.
    rewrite Hsize, Hmin.
    change (@num_div ieee) with div. change (@num_mul ieee) with mul.
    rewrite (mul_zero_positive Hsp Hfin), (mul_zero_positive Hsp Hfin).
    now apply div_positive_zero. }
  split; [exact Hfrom_min|]. intros Htruthy Hfinite.
  assert (Hsum : nextSum st z = sum st).
  { unfold nextSum in *. change (@num_add ieee) with add in *.
    rewrite Hsize in *. now apply add_zero_square. }
  assert (Hfrom_max : scoreFromMax space st z
                      = smax st * space * space / (sum st * sum st)).
  { unfold scoreFromMax, next_smax. rewrite Hsum.
    change (@num_lt ieee) with ltb. rewrite Hsize.
    now rewrite (positive_not_below_zero Hmax). }
  assert (Hscore : score space st z = infinity).
  { unfold score. rewrite Hfrom_min, Hfrom_max.
    change (@num_max ieee) with Math_max. apply Math_max_infinity.
    apply truthy_not_nan in Htruthy.
    rewrite (visits_lastScore Hv Hend) in Htruthy.
    exact (Math_max_not_nan _ _ Htruthy). }
  unfold rejects. rewrite Hscore.
  change (@num_truthy ieee) with truthy. change (@num_lt ieee) with ltb.
  now rewrite Htruthy, Hfinite.
Qed.

(** C9 (as amended). On binary64 numbers, with a [space] that is above 0
    and finite, if the weights from [start] up to some later index [k] are
    above 0 and the weight at [k] is [+0], then at candidate [k], if the
    square of [nextSum] has not gone down to 0, the ratio
    [nextSum^2 / (smin * space^2)] is [Infinity]; if moreover the recorded
    score is truthy and below [Infinity], the candidate is rejected and the
    call returns the span that ends at [k]. So when this holds of the
    state in which the loop reaches [k], the returned span ends at [k] at
    the latest. *)
Theorem zero_weight_ends_span_binary64 children space start k zero_child :
  (0 <? space) = true -> (space <? infinity) = true ->
  (start < k)%nat ->
  (forall i c, (start <= i < k)%nat -> nth_error children i = Some c ->
               (0 <? size c) = true) ->
  nth_error children k = Some zero_child ->
  size zero_child = 0 ->
  (forall st, visits children space start st -> end_ st = k ->
     (0 <? nextSum st zero_child * nextSum st zero_child) = true ->
     scoreFromMin space st zero_child = infinity
     /\ (truthy (lastScore st) = true -> (lastScore st <? infinity) = true ->
         rejects space st zero_child = true
         /\ selectSpan children space start = Ok (k, sum st)))
  /\ ((forall st, visits children space start st -> end_ st = k ->
         (0 <? nextSum st zero_child * nextSum st zero_child) = true
         /\ truthy (lastScore st) = true
         /\ (lastScore st <? infinity) = true) ->
      exists e s, selectSpan children space start = Ok (e, s)
                  /\ (start < e <= k)%nat).
Proof.
  intros Hsp Hfin Hk Hpos Hzero Hsize.
  assert (Hat : forall st, visits children space start st -> end_ st = k ->
            (0 <? nextSum st zero_child * nextSum st zero_child) = true ->
            scoreFromMin space st zero_child = infinity
            /\ (truthy (lastScore st) = true ->
                (lastScore st <? infinity) = true ->
                rejects space st zero_child = true)).
  { intros st Hv Hend Hsq.
    destruct (visits_positive Hpos Hk Hv) as (Hmin & Hmax); [lia|].
    apply (zero_candidate Hsp Hfin Hv); try assumption. lia. }
  split.
  - intros st Hv Hend Hsq. destruct (Hat st Hv Hend Hsq) as (Hinf & Hrej).
    split; [exact Hinf|]. intros Htruthy Hfinite.
    pose proof (Hrej Htruthy Hfinite) as Hr. split; [exact Hr|].
    rewrite (selectSpan_resume Hv).
    assert (Hc : nth_error children (end_ st) = Some zero_child)
      by (now rewrite Hend).
    rewrite (span_loop_break (N:=ieee) _ _ _ Hc Hr). now rewrite Hend.
  - intros Hcond.
    assert (Hbound : forall st, visits children space start st ->
                                (end_ st <= k)%nat).
    { induction 1 as [first Hf | st c Hv IH Hc Hr]; simpl; [lia|].
      destruct (Nat.eq_dec (end_ st) k) as [Heq|]; [|lia].
      rewrite Heq, Hzero in Hc. injection Hc as <-.
      destruct (Hcond st Hv Heq) as (Hsq & Htruthy & Hfinite).
      destruct (Hat st Hv Heq Hsq) as (_ & Hrej).
      rewrite (Hrej Htruthy Hfinite) in Hr. discriminate. }
    assert (Hstart : (start < length children)%nat).
    { apply Nat.lt_trans with k; [assumption|].
      apply nth_error_Some. congruence. }
    destruct (nth_error children start) as [first|] eqn:Hf;
      [|apply nth_error_None in Hf; lia].
    pose proof (visits_final (visits_init _ space _ Hf)) as Hfinal.
    destruct (selectSpan_nonempty children space Hstart)
      as (e & s & He & Hgt & _).
    exists e, s. split; [assumption|]. split; [assumption|].
    unfold selectSpan in He. rewrite Hf in He. injection He as <- _.
    apply (Hbound _ Hfinal).
Qed.


(** ** The theorems at concrete inputs *)

(** The states the loop goes through on weights [10, 9, 1] with
    [space = 10]: none but the first three. *)
Lemma visits_10_9_only (st : SpanState ieee) :
  let cs := leaves [10; 9; 1] in
  let st0 := span_init (fleaf 10) 0 in
  let st1 := include 10 st0 (fleaf 10) in
  let st2 := include 10 st1 (fleaf 9) in
  visits cs 10 0 st -> st = st0 \/ st = st1 \/ st = st2.
Proof.
  intros cs st0 st1 st2.
  induction 1 as [first Hf | st c Hv IH Hc Hr].
  - left. injection Hf as <-. reflexivity.
  - destruct IH as [-> | [-> | ->]].
    + right. left. injection Hc as <-. reflexivity.
    + right. right. injection Hc as <-. reflexivity.
    + injection Hc as <-. discriminate Hr.
Qed.

Lemma recorded_scores_descend_witness :
  let cs := leaves [10; 9; 1] in
  let final := span_loop 10 cs (span_init (fleaf 10) 0) in
  selectSpan cs 10 0 = Ok (end_ final, sum final)
  /\ visits cs 10 0 final
  /\ lastScore final = 1000 / 361
  /\ (forall st, visits cs 10 0 st -> (0 < end_ st)%nat ->
        (lastScore final <=? lastScore st) = true).
Proof.
  intros cs final.
  assert (Htruthy : forall st, visits cs 10 0 st -> (0 < end_ st)%nat ->
                               truthy (lastScore st) = true).
  { intros st Hv Hend.
    destruct (visits_10_9_only Hv) as [-> | [-> | ->]];
      [inversion Hend | reflexivity | reflexivity]. }
  destruct (@recorded_scores_descend cs 10 0%nat (fleaf 10) eq_refl Htruthy)
    as (Hres & Hv & _ & _ & Hmin).
  split; [exact Hres|]. split; [exact Hv|]. split; [reflexivity|exact Hmin].
Defined.

(** The one state in which the loop is at candidate 1 on weights [5, 0]. *)
Lemma visits_5_0_at_1 (st : SpanState ieee) :
  visits (leaves [5; 0]) 10 0 st -> end_ st = 1%nat ->
  st = include 10 (span_init (fleaf 5) 0) (fleaf 5).
Proof.
  intros Hv. destruct Hv as [first Hf | st c Hv Hc Hr]; [discriminate|].
  simpl. intros [= Hend].
  destruct Hv as [first Hf | st' c' Hv' Hc' Hr']; [|discriminate].
  injection Hf as <-. injection Hc as <-. reflexivity.
Qed.

Lemma zero_weight_ends_span_binary64_witness :
  let st1 := include 10 (span_init (fleaf 5) 0) (fleaf 5) in
  (scoreFromMin 10 st1 (fleaf 0) = infinity
   /\ rejects 10 st1 (fleaf 0) = true
   /\ selectSpan (leaves [5; 0]) 10 0 = Ok (1%nat, 5))
  /\ exists e s, selectSpan (leaves [5; 0]) 10 0 = Ok (e, s)
                 /\ (0 < e <= 1)%nat.
Proof.
  intros st1.
  assert (Hpos : forall i c, (0 <= i < 1)%nat ->
            nth_error (leaves [5; 0]) i = Some c -> (0 <? size c) = true).
  { intros [|i] c Hi; [|lia]. intros [= <-]. reflexivity. }
  assert (Hv : visits (leaves [5; 0]) 10 0 st1).
  { apply (@visits_include ieee (leaves [5; 0]) 10 0%nat
             (span_init (fleaf 5) 0) (fleaf 5));
      [apply (@visits_init ieee (leaves [5; 0]) 10 0%nat (fleaf 5)) | |];
      reflexivity. }
  destruct (@zero_weight_ends_span_binary64 (leaves [5; 0]) 10 0%nat 1%nat
              (fleaf 0) eq_refl eq_refl Nat.lt_0_1 Hpos eq_refl eq_refl)
    as (Hat & Hend).
  split.
  - destruct (Hat st1 Hv eq_refl eq_refl) as (Hinf & Hrej).
    destruct (Hrej eq_refl eq_refl) as (Hr & Hspan).
    split; [exact Hinf|]. split; [exact Hr|exact Hspan].
  - apply Hend. intros st Hst He.
    rewrite (visits_5_0_at_1 Hst He). repeat split.
Defined.

(** Counterexample to C9 as stated, on binary64 numbers: candidates that
    bring the running minimum to 0 and are included all the same.
    At the start: on weights [0, 5] the second candidate's ratio is
    [Infinity], yet it is included, the recorded score being [NaN]; on
    [5, 0, 0] from [start = 1] the ratio is [0/0], which is [NaN].
    After the start: a weight of [-0] makes the ratio [-Infinity]; when
    the square of [nextSum] goes down to 0 the ratio is [NaN]; when the
    recorded score is [Infinity] or [NaN] the ratio is [Infinity] but is
    not above the recorded score; and with an infinite [space] the ratio
    is [NaN]. *)
Lemma zero_weight_not_always_rejected :
  (selectSpan (leaves [0; 5]) 10 0 = Ok (2%nat, 5)
   /\ is_nan (scoreFromMin 10 (span_init (fleaf 0) 1) (fleaf 0)) = true
   /\ selectSpan (leaves [5; 0; 0]) 10 1 = Ok (3%nat, 0))
  /\ (let st1 := include 10 (span_init (fleaf 5) 0) (fleaf 5) in
      (neg_zero =? 0) = true
      /\ scoreFromMin 10 st1 (fleaf neg_zero) = neg_infinity
      /\ rejects 10 st1 (fleaf neg_zero) = false
      /\ selectSpan (leaves [5; neg_zero]) 10 0 = Ok (2%nat, 5))
  /\ (let w := 0x1p-600 in
      let st1 := include 10 (span_init (fleaf w) 0) (fleaf w) in
      (0 <? w) = true
      /\ nextSum st1 (fleaf 0) * nextSum st1 (fleaf 0) = 0
      /\ is_nan (scoreFromMin 10 st1 (fleaf 0)) = true
      /\ rejects 10 st1 (fleaf 0) = false
      /\ selectSpan (leaves [w; 0]) 10 0 = Ok (2%nat, w))
  /\ (let w := 0x1p600 in
      let space := 0x1p-600 in
      let st1 := include space (span_init (fleaf w) 0) (fleaf w) in
      (0 <? w) = true /\ (0 <? space) = true
      /\ lastScore st1 = infinity
      /\ scoreFromMin space st1 (fleaf 0) = infinity
      /\ rejects space st1 (fleaf 0) = false
      /\ selectSpan (leaves [w; 0]) space 0 = Ok (2%nat, w))
  /\ (let w := 0x1p700 in
      let st1 := include w (span_init (fleaf w) 0) (fleaf w) in
      is_nan (lastScore st1) = true
      /\ scoreFromMin w st1 (fleaf 0) = infinity
      /\ rejects w st1 (fleaf 0) = false
      /\ selectSpan (leaves [w; 0]) w 0 = Ok (2%nat, w))
  /\ (let st1 := include infinity (span_init (fleaf 5) 0) (fleaf 5) in
      is_nan (scoreFromMin infinity st1 (fleaf 0)) = true
      /\ rejects infinity st1 (fleaf 0) = false
      /\ selectSpan (leaves [5; 0]) infinity 0 = Ok (2%nat, 5)).
Proof. repeat split. Qed.

End IEEE_facts.

(** * The functions run on binary64 numbers *)

Module IEEE_runs.

Import PrimFloat IEEE.
Local Open Scope float_scope.

(** The states of [selectSpan(children, 10, 0)] on weights [10, 9, 1]
    after one and after two items. *)
Lemma visits_10_9 :
  let cs := leaves [10; 9; 1] in
  let st1 := include 10 (span_init (fleaf 10) 0) (fleaf 10) in
  let st2 := include 10 st1 (fleaf 9) in
  visits cs 10 0 st1 /\ visits cs 10 0 st2.
Proof.
  intros cs st1 st2.
  assert (H1 : visits cs 10 0 st1).
  { apply (@visits_include ieee cs 10 0%nat (span_init (fleaf 10) 0) (fleaf 10));
      [apply (@visits_init ieee cs 10 0%nat (fleaf 10)) | |]; reflexivity. }
  split; [exact H1|].
  apply (@visits_include ieee cs 10 0%nat st1 (fleaf 9)); [exact H1 | |];
    reflexivity.
Qed.

(** C7. On weights [10, 9, 1] with [space = 10] and [start = 0],
    [selectSpan] returns [end = 2] and [sum = 19]: after two items the
    recorded score is [1000/361] (2.77...), the third item would bring it
    to 4, which is greater, so the third item is rejected. *)
Theorem selectSpan_10_9_1 :
  let cs := leaves [10; 9; 1] in
  let st2 := include 10 (include 10 (span_init (fleaf 10) 0) (fleaf 10)) (fleaf 9) in
  selectSpan cs 10 0 = Ok (2%nat, 19)
  /\ visits cs 10 0 st2
  /\ end_ st2 = 2%nat
  /\ lastScore st2 = 1000 / 361
  /\ score 10 st2 (fleaf 1) = 4
  /\ (score 10 st2 (fleaf 1) >? lastScore st2)%js = true
  /\ rejects 10 st2 (fleaf 1) = true.
Proof.
  intros cs st2. split; [reflexivity|]. split; [apply visits_10_9|].
  repeat split; reflexivity.
Qed.

Lemma selectSpan_end_gt_start_witness :
  Nat.lt 0 (length (leaves [10; 9; 1]))
  /\ exists e s, selectSpan (leaves [10; 9; 1]) 10 0 = Ok (e, s)
                 /\ Nat.lt 0 e /\ Nat.le e (length (leaves [10; 9; 1])).
Proof.
  split; [apply Nat.lt_0_succ|].
  apply (@selectSpan_end_gt_start ieee (leaves [10; 9; 1]) 10 0%nat).
  apply Nat.lt_0_succ.
Defined.

Lemma selectSpan_candidate_witness :
  let cs := leaves [10; 9; 1] in
  let st2 := include 10 (include 10 (span_init (fleaf 10) 0) (fleaf 10)) (fleaf 9) in
  visits cs 10 0 st2
  /\ nth_error cs (end_ st2) = Some (fleaf 1)
  /\ selectSpan cs 10 0 = Ok (end_ st2, sum st2).
Proof.
  intros cs st2. pose proof (proj2 visits_10_9) as Hv.
  split; [exact Hv|]. split; [reflexivity|].
  apply (proj1 (@selectSpan_candidate ieee cs 10 0%nat st2 (fleaf 1) Hv eq_refl)).
  reflexivity.
Defined.

(** The truncation example in a 40 by 400 rectangle: the strips are
    [85], [14] and [1], and the last one is below the cutoff. *)
Lemma truncation_path :
  strip_path (leaves [85; 14; 1]) 100 (space_of 100 0 0 40 400) 0 2.
Proof.
  eapply strip_path_step with (e:=1%nat) (sum:=85);
    [apply Nat.lt_0_succ | reflexivity | reflexivity |].
  eapply strip_path_step with (e:=2%nat) (sum:=14);
    [apply le_n_S, Nat.lt_0_succ | reflexivity | reflexivity |].
  apply strip_path_here.
Qed.

Lemma layout_cutoff_witness :
  selectSpan (leaves [85; 14; 1]) (space_of 100 0 0 40 400) 2 = Ok (3%nat, 1)
  /\ (1 / 100 <? tenth) = true
  /\ exists strips,
       layout newOptions truncation_example 0 40 400 = Ok strips
       /\ map (@b_index ieee) (appended strips) = [0; 1]%nat.
Proof.
  split; [reflexivity|]. split; [reflexivity|].
  apply (@layout_cutoff ieee newOptions 100 (leaves [85; 14; 1]) None 0%nat
           40 400 0 0 40 400 2%nat 3%nat 1);
    try reflexivity.
  - exact truncation_path.
  - apply Nat.lt_succ_diag_r.
Defined.

(** In a square the same node keeps all three children: [14] and [1] share
    the second strip, whose sum is 15. *)
Lemma truncation_example_square :
  exists strips,
    layout newOptions truncation_example 0 100 100 = Ok strips
    /\ map (@b_index ieee) (appended strips) = [0; 1; 2]%nat
    /\ map (fun strip => s_sum strip) strips = [85; 15].
Proof. eexists. split; [cbv; reflexivity|]. split; reflexivity. Qed.

Lemma layout_content_too_small_witness :
  content newOptions 39 400 = (0, 0, 39, 400)
  /\ (39 - 0 <? 40) = true
  /\ layout newOptions truncation_example 0 39 400 = Ok [].
Proof.
  split; [reflexivity|]. split; [reflexivity|].
  apply (@layout_content_too_small ieee newOptions truncation_example 0%nat
           39 400 0 0 39 400); [reflexivity|].
  left. reflexivity.
Defined.

(** The nested example in a 43 by 200 rectangle: one element, 43 wide,
    whose own child is laid out in 41 by 198. *)
Lemma nested_layout :
  exists strip b inner_strip inner_b,
    layout newOptions nested_example 0 43 200 = Ok [strip]
    /\ s_items strip = [b]
    /\ b_widthPx b = 43
    /\ b_inner b = [inner_strip]
    /\ s_items inner_strip = [inner_b]
    /\ b_widthPx inner_b = 41 /\ b_heightPx inner_b = 198.
Proof.
  do 4 eexists. split; [cbv; reflexivity|]. repeat split.
Qed.

Lemma layout_recurses_witness :
  exists strips b,
    layout newOptions nested_example 0 43 200 = Ok strips
    /\ In b (appended strips)
    /\ b_level b = 1%nat
    /\ layout newOptions (b_data b) 1 (b_widthPx b - 2) (b_heightPx b - 2)
       = Ok (b_inner b).
Proof.
  destruct nested_layout as (strip & b & _ & _ & Hlayout & Hitems & _).
  exists [strip], b.
  assert (Hb : In b (appended [strip])).
  { unfold appended. simpl. rewrite Hitems. left. reflexivity. }
  split; [exact Hlayout|]. split; [exact Hb|].
  exact (proj2 (@layout_recurses ieee newOptions nested_example 0%nat 43 200
                  [strip] b Hlayout Hb)).
Defined.

(** Counterexample to C8 as stated: the element is 43 wide; had the child
    been laid out in the width less 4 (39, below 40) it would have got no
    element, but it has one, from the width less 2. *)
Lemma layout_inset_is_not_4 :
  exists strips b,
    layout newOptions nested_example 0 43 200 = Ok strips
    /\ In b (appended strips)
    /\ b_widthPx b = 43
    /\ layout newOptions (b_data b) 1 (b_widthPx b - 4) (b_heightPx b - 4)
       = Ok []
    /\ layout newOptions (b_data b) 1 (b_widthPx b - 4) (b_heightPx b - 4)
       <> Ok (b_inner b).
Proof.
  do 2 eexists. split; [cbv; reflexivity|]. split; [left; reflexivity|].
  split; [reflexivity|]. split; [reflexivity|]. discriminate.
Qed.

(** Counterexample to C1 as stated. In binary64 the operations round: the
    one strip of the nested example has area 8600.000000000002, above
    [(sum / total) * ((x2 - x1) * (y2 - y1))], which is 8600. *)
Lemma strip_area_rounded :
  exists strip,
    layout newOptions nested_example 0 43 200 = Ok [strip]
    /\ content newOptions 43 200 = (0, 0, 43, 200)
    /\ s_sum strip / 100 * ((43 - 0) * (200 - 0)) = 8600
    /\ (8600 <? strip_area strip) = true.
Proof. eexists. split; [cbv; reflexivity|]. repeat split. Qed.

(** Counterexample to C2 as stated. In binary64 the element of the nested
    example is 200.00000000000003 high and ends below [y2 = 200]. And
    whatever the arithmetic, when the children's sizes add up to more than
    the node's size (here 200 against 100, in 100 by 100) the second strip
    starts at [y = 100] and ends at 200, below [y2 = 100]. *)
Lemma elements_outside_content :
  (exists strips b,
     layout newOptions nested_example 0 43 200 = Ok strips
     /\ In b (appended strips)
     /\ content newOptions 43 200 = (0, 0, 43, 200)
     /\ b_y b = 0
     /\ (200 <? b_y b + b_heightPx b) = true)
  /\ (exists strips b,
        layout newOptions (node 100 (leaves [100; 100])) 0 100 100 = Ok strips
        /\ In b (appended strips)
        /\ content newOptions 100 100 = (0, 0, 100, 100)
        /\ b_y b = 100 /\ b_heightPx b = 100
        /\ (100 <? b_y b + b_heightPx b) = true).
Proof.
  split.
  - do 2 eexists. split; [cbv; reflexivity|]. split; [left; reflexivity|].
    repeat split.
  - do 2 eexists. split; [cbv; reflexivity|].
    split; [right; left; reflexivity|]. repeat split.
Qed.

(** Counterexample to C10 as stated. In binary64, on the positive weights
    [2^700, 2^700] with [space = 2^700] both ratios overflow to
    [Infinity / Infinity]: the recorded score is [NaN], the second item is
    included, and its score is not at most the recorded one. *)
Lemma score_overflows :
  let w := 0x1p700 in
  let st1 := include w (span_init (fleaf w) 0) (fleaf w) in
  (0 <? w) = true
  /\ visits (leaves [w; w]) w 0 st1
  /\ is_nan (lastScore st1) = true
  /\ rejects w st1 (fleaf w) = false
  /\ (score w st1 (fleaf w) <=? lastScore st1) = false
  /\ selectSpan (leaves [w; w]) w 0 = Ok (2%nat, 0x1p701).
Proof.
  intros w st1. split; [reflexivity|]. split.
  - apply (@visits_include ieee (leaves [w; w]) w 0%nat
             (span_init (fleaf w) 0) (fleaf w));
      [apply (@visits_init ieee (leaves [w; w]) w 0%nat (fleaf w)) | |];
      reflexivity.
  - repeat split.
Qed.

End IEEE_runs.

(** * The shape of what [layout] appends, on binary64 numbers *)

Module IEEE_shape_runs.

Import PrimFloat IEEE.
Local Open Scope float_scope.

Lemma layout_elements_are_a_prefix_witness :
  exists strips,
    layout newOptions truncation_example 0 40 400 = Ok strips
    /\ exists n,
         (n <= 3)%nat
         /\ map (@b_index ieee) (appended strips) = seq 0 n
         /\ map (@b_data ieee) (appended strips)
            = firstn n (leaves [85; 14; 1]).
Proof.
  eexists. split; [cbv; reflexivity|].
  apply (@layout_elements_are_a_prefix ieee newOptions 100
           (leaves [85; 14; 1]) None 0%nat 40 400).
  reflexivity.
Defined.

Lemma strips_are_consecutive_spans_witness :
  exists strips,
    layout newOptions truncation_example 0 100 100 = Ok strips
    /\ (forall strip, hd_error strips = Some strip -> s_start strip = 0%nat)
    /\ (forall k strip strip',
          nth_error strips k = Some strip ->
          nth_error strips (S k) = Some strip' ->
          s_start strip' = s_end strip)
    /\ (forall strip, In strip strips ->
          (s_start strip < s_end strip <= 3)%nat
          /\ map (@b_index ieee) (s_items strip)
             = seq (s_start strip) (s_end strip - s_start strip)
          /\ map (@b_data ieee) (s_items strip)
             = firstn (s_end strip - s_start strip)
                 (skipn (s_start strip) (leaves [85; 14; 1]))).
Proof.
  eexists. split; [cbv; reflexivity|].
  apply (@strips_are_consecutive_spans ieee newOptions 100
           (leaves [85; 14; 1]) None 0%nat 100 100).
  reflexivity.
Defined.

Lemma strips_and_elements_adjoin_witness :
  exists strips,
    layout newOptions truncation_example 0 100 100 = Ok strips
    /\ (forall strip, hd_error strips = Some strip -> s_y strip = 0)
    /\ (forall k strip strip',
          nth_error strips k = Some strip ->
          nth_error strips (S k) = Some strip' ->
          s_y strip' = s_y strip + s_heightPx strip)
    /\ (forall strip, In strip strips ->
          (forall b, hd_error (s_items strip) = Some b -> b_x b = 0)
          /\ (forall j b b',
                nth_error (s_items strip) j = Some b ->
                nth_error (s_items strip) (S j) = Some b' ->
                b_x b' = b_x b + b_widthPx b)
          /\ (forall b, In b (s_items strip) ->
                b_y b = s_y strip /\ b_heightPx b = s_heightPx strip)).
Proof.
  eexists. split; [cbv; reflexivity|].
  apply (@strips_and_elements_adjoin ieee newOptions 100
           (leaves [85; 14; 1]) None 0%nat 100 100 0 0 100 100).
  - reflexivity.
  - reflexivity.
Defined.

Lemma layout_without_children_witness :
  children (node 100 []) = Some []
  /\ layout newOptions (node 100 []) 0 100 100 = Ok [].
Proof.
  split; [reflexivity|].
  apply (@layout_without_children ieee newOptions (node 100 []) 0%nat 100 100).
  right. reflexivity.
Defined.

End IEEE_shape_runs.

(** * [render] and [getAddress] run on a document *)

Module IEEE_document_runs.

Import PrimFloat IEEE.
Import String.StringSyntax.
Local Open Scope string_scope.
Local Open Scope float_scope.

Lemma getAddress_of_rendered_element_witness :
  exists strips top b1 b2,
    layout newCaptionOptions captioned_example 0 43 200 = Ok strips
    /\ render_into captioned_treemap used_container 43 200 = Ok top
    /\ element_chain strips [b1; b2]
    /\ caption (b_data b2) = Some "c"
    /\ element_at top [1; 1; 1]%nat
       = Some (element_of newCaptionOptions_createNode b2)
    /\ getAddress captioned_treemap top [1; 1; 1]%nat
       = Ok [Some captioned_example; Some (b_data b1); Some (b_data b2)].
Proof.
  do 4 eexists. split; [cbv; reflexivity|]. split; [cbv; reflexivity|].
  match goal with |- element_chain ?strips ?bs /\ _ =>
    assert (Hchain : element_chain strips bs) end.
  { apply chain_down; [left; reflexivity|].
    apply chain_down; [left; reflexivity|]. apply chain_here. }
  split; [exact Hchain|]. split; [reflexivity|].
  apply (@getAddress_of_rendered_element ieee captioned_treemap
           used_container 43 200 _ _ _ newCaptionOptions_makes_nodes
           eq_refl eq_refl eq_refl Hchain).
Defined.

(** The caption inside the element of the child: its address is that of
    the root, not of the child. *)
Lemma getAddress_of_other_element_witness :
  exists top e,
    render_into captioned_treemap used_container 43 200 = Ok top
    /\ element_at top [1; 1; 0]%nat = Some e
    /\ classList e = ["webtreemap-caption"] /\ innerText e = Some "b"
    /\ getAddress captioned_treemap top [0; 1; 1]%nat
       = Ok [Some captioned_example].
Proof.
  do 2 eexists. split; [cbv; reflexivity|]. split; [reflexivity|].
  split; [reflexivity|]. split; [reflexivity|].
  apply (@getAddress_of_other_element ieee captioned_treemap).
  intros e He. injection He as <-. reflexivity.
Defined.

Lemma levels_count_the_depth_witness :
  exists strips b1 b2,
    layout newCaptionOptions captioned_example 0 43 200 = Ok strips
    /\ element_chain strips [b1; b2]
    /\ map (@b_level ieee) [b1; b2] = [1; 2]%nat.
Proof.
  do 3 eexists. split; [cbv; reflexivity|].
  match goal with |- element_chain ?strips ?bs /\ _ =>
    assert (Hchain : element_chain strips bs) end.
  { apply chain_down; [left; reflexivity|].
    apply chain_down; [left; reflexivity|]. apply chain_here. }
  split; [exact Hchain|].
  apply (@levels_count_the_depth ieee newCaptionOptions _
           captioned_example 0%nat 43 200 _ eq_refl Hchain).
Defined.

(** The element of the child comes after a caption: its index is 0. *)
Lemma getNodeIndex_counts_node_siblings_witness :
  exists top p,
    render_into captioned_treemap used_container 43 200 = Ok top
    /\ node_at top [1]%nat = Some p
    /\ map (fun e => classList e) (elementChildren p)
       = [["webtreemap-caption"]; ["webtreemap-node"]]
    /\ length (filter (fun e => contains e NODE_CSS_CLASS)
                 (firstn 1 (elementChildren p))) = 0%nat
    /\ getNodeIndex top [1; 1]%nat
       = length (filter (fun e => contains e NODE_CSS_CLASS)
                   (firstn 1 (elementChildren p))).
Proof.
  do 2 eexists. split; [cbv; reflexivity|]. split; [reflexivity|].
  split; [reflexivity|]. split; [reflexivity|].
  apply (@getNodeIndex_counts_node_siblings ieee _ 1%nat [1%nat] _);
    [reflexivity|apply le_S, le_n].
Defined.

End IEEE_document_runs.
